(** * Collatz automata: trajectories, bit grids and frame sequences

    A shallow embedding of [collatz_automata.py].  Python integers are
    unbounded, so they are modelled by [Z]; [//] and [%] with the positive
    divisor 2 are [Z.div] and [Z.modulo] (both floor towards minus infinity).
    Python lists are Rocq lists with stdpp's lookup.  A raised exception
    ([ValueError], [IndexError], [ZeroDivisionError]) and a [while] loop that
    has not finished when its fuel ends are both [None]. *)

From Stdlib Require Import ZArith Lia.
From stdpp Require Import base numbers option list.

Local Open Scope Z_scope.

(** ** Sequence engine *)

Module Engine.

(** [collatz]: [n // 2 if n % 2 == 0 else 3 * n + 1]. *)
Definition collatz (n : Z) : Z :=
  if n mod 2 =? 0 then n / 2 else 3 * n + 1.

(** The loop [while n % 2 == 0: n //= 2] of [collatz_t3].  It does not
    terminate on 0, so it takes fuel; [None] is fuel exhaustion. *)
Fixpoint halve_loop (fuel : nat) (n : Z) : option Z :=
  match fuel with
  | O => None
  | S fuel' => if n mod 2 =? 0 then halve_loop fuel' (n / 2) else Some n
  end.

(** Python's [int.bit_length]: the number of binary digits of [|v|]. *)
Definition bit_length (v : Z) : nat :=
  match v with
  | Z0 => O
  | Zpos p | Zneg p => Pos.size_nat p
  end.

(** Fuel handed to the loops that shift or halve a value until it is used
    up: one test per binary digit and the final, failing test. *)
Definition digits_fuel (v : Z) : nat := S (bit_length v).

(** [collatz_t3]. *)
Definition collatz_t3 (n : Z) : option Z :=
  if n <=? 1 then Some 1
  else
    let n1 := if n mod 2 =? 1 then 3 * n + 1 else n in
    halve_loop (digits_fuel n1) n1.

(** The hard-wired bound of [trajectory]: [if len(path) > 50000: break]. *)
Definition CAP : Z := 50000.

(** [step = collatz_t3 if accelerated else collatz]. *)
Definition step (accelerated : bool) (x : Z) : option Z :=
  if accelerated then collatz_t3 x else Some (collatz x).

(** The loop of [trajectory]:
<<
    while path[-1] != 1:
        path.append(step(path[-1]))
        if len(path) > 50000:
            break
>>
    [path[-1]] is stdpp's [last] ([None] on the empty list, where Python
    raises). *)
Fixpoint trajectory_loop (accelerated : bool) (fuel : nat) (path : list Z)
  : option (list Z) :=
  match fuel with
  | O => None
  | S fuel' =>
      x ← last path;
      if x =? 1 then Some path
      else
        y ← step accelerated x;
        let path' := path ++ [y] in
        if CAP <? Z.of_nat (length path') then Some path'
        else trajectory_loop accelerated fuel' path'
  end.

(** Every iteration that does not leave the loop makes [path] one longer,
    and the loop is left once the length exceeds [CAP]: [CAP] iterations
    and one more test are all the loop can use from a one-element path. *)
Definition loop_fuel : nat := Z.to_nat (CAP + 1).

(** [trajectory(n, accelerated)]. *)
Definition trajectory (n : Z) (accelerated : bool) : option (list Z) :=
  let path := [n] in
  if n <=? 1 then Some path
  else trajectory_loop accelerated loop_fuel path.

End Engine.

(** ** Control flow shared by the encoder and the compositor *)

(** A Python [for] loop over [l] whose body updates the loop state [s] and
    may raise: the first [None] ends the loop. *)
Fixpoint for_each {A S : Type} (body : A → S → option S) (l : list A) (s : S)
  : option S :=
  match l with
  | [] => Some s
  | a :: l' => s' ← body a s; for_each body l' s'
  end.

(** [enumerate(l, start)]. *)
Fixpoint enumerate_from {A : Type} (start : nat) (l : list A) : list (nat * A) :=
  match l with
  | [] => []
  | a :: l' => (start, a) :: enumerate_from (S start) l'
  end.

Definition enumerate {A : Type} (l : list A) : list (nat * A) :=
  enumerate_from 0 l.

(** [max] of a finite iterable: [ValueError] on an empty one. *)
Definition py_max (l : list nat) : option nat :=
  match l with
  | [] => None
  | x :: l' => Some (foldl Nat.max x l')
  end.

(** ** Bit-grid encoder *)

Module Encoder.
Import Engine.

Definition EMPTY : Z := -1.

(** A two-dimensional numpy array: its shape and its rows.  The cells hold
    only -1, 0 and 1, so the [int8] element type never wraps. *)
Record ndarray : Type := mk_ndarray {
  shape0 : nat;
  shape1 : nat;
  data : list (list Z)
}.

(** [np.full((rows, cols), fill)]. *)
Definition np_full (rows cols : nat) (fill : Z) : ndarray :=
  mk_ndarray rows cols (replicate rows (replicate cols fill)).

(** [g[i, j]] for indices that are not negative; [None] is [IndexError]. *)
Definition getitem (g : ndarray) (i j : nat) : option Z :=
  if decide (i < shape0 g ∧ j < shape1 g)%nat
  then row ← data g !! i; row !! j
  else None.

(** [g[i, j] = b] for indices that are not negative. *)
Definition setitem (g : ndarray) (i j : nat) (b : Z) : option ndarray :=
  if decide (i < shape0 g ∧ j < shape1 g)%nat
  then Some (mk_ndarray (shape0 g) (shape1 g) (alter (<[j:=b]>) i (data g)))
  else None.

(** The loop of [binary_grid] that peels the bits of [v], lowest first:
<<
    while v > 0:
        bits.append(v & 1)
        v >>= 1
>> *)
Fixpoint bits_loop (fuel : nat) (v : Z) (bits : list Z) : option (list Z) :=
  match fuel with
  | O => None
  | S fuel' =>
      if 0 <? v then bits_loop fuel' (Z.shiftr v 1) (bits ++ [Z.land v 1])
      else Some bits
  end.

(** The body of [for i, val in enumerate(traj)]. *)
Definition encode_row (ival : nat * Z) (grid : ndarray) : option ndarray :=
  let '(i, val) := ival in
  bits ← bits_loop (digits_fuel val) val [];
  let bits := reverse bits in
  for_each (λ '(j, b) grid, setitem grid i j b) (enumerate bits) grid.

(** [binary_grid]. *)
Definition binary_grid (traj : list Z) : option ndarray :=
  max_bits ← py_max (bit_length <$> filter (λ v, 0 < v) traj);
  let grid := np_full (length traj) max_bits EMPTY in
  for_each encode_row (enumerate traj) grid.

(** Reading a row back: a cell is a binary digit when it is ZERO or ONE. *)
Definition cell_bit (c : Z) : option Z :=
  if c =? 1 then Some 1 else if c =? 0 then Some 0 else None.

(** The integer written in columns [j .. j + n - 1] of row [i], most
    significant digit first, continuing from the digits read so far. *)
Fixpoint read_columns (g : ndarray) (i j n : nat) (acc : Z) : option Z :=
  match n with
  | O => Some acc
  | S n' =>
      c ← getitem g i j;
      b ← cell_bit c;
      read_columns g i (S j) n' (2 * acc + b)
  end.

Definition decode_row (g : ndarray) (i n : nat) : option Z :=
  read_columns g i 0 n 0.

End Encoder.

Import Engine Encoder.

(** ** Frame compositor and scene builders *)

Module Compositor.
Import Engine Encoder.

Definition color : Type := Z * Z * Z.

Definition BG : color := (8, 8, 16).
Definition PAL_DEFAULT : color * color := ((232, 160, 32), (20, 34, 56)).
Definition PAL_MULTI : list (color * color) :=
  [ ((240, 80, 45), (52, 20, 12));
    ((55, 210, 95), (14, 45, 22));
    ((80, 145, 245), (18, 34, 58));
    ((230, 195, 55), (50, 42, 14)) ].

(** [_bright]. *)
Definition _bright (c : color) (amt : Z) : color :=
  let '(r, g, b) := c in
  (Z.min 255 (r + amt), Z.min 255 (g + amt), Z.min 255 (b + amt)).

(** The raster surface is an external collaborator.  A canvas is its size,
    its background and the rectangle fills issued on it so far, oldest
    first; [canvas.copy()] is the value itself.  The library refuses a
    negative image size and a rectangle with [x1 < x0] or [y1 < y0]; the
    model records them instead, so a statement that a scene returns holds
    of the program where the geometry rules these out: the clamped cell of
    [spacetime_gif], or the hypotheses [1 ≤ cell] and [0 ≤ gap_cols]. *)
Record Canvas : Type := mk_Canvas {
  width : Z;
  height : Z;
  background : color;
  fills : list (Z * Z * Z * Z * color)
}.

(** [Image.new('RGB', (w, h), bg)]. *)
Definition Image_new (w h : Z) (bg : color) : Canvas := mk_Canvas w h bg [].

(** [draw.rectangle([x0, y0, x1, y1], fill=color)]. *)
Definition draw_rectangle (canvas : Canvas) (box : Z * Z * Z * Z) (fill : color)
  : Canvas :=
  mk_Canvas (width canvas) (height canvas) (background canvas)
            (fills canvas ++ [(box, fill)]).

(** [a // b]: [ZeroDivisionError] when [b] is 0. *)
Definition floordiv (a b : Z) : option Z :=
  if b =? 0 then None else Some (a / b).

(** The body of [for j in range(ncols)] that [row_draw] and [traj_row] have
    in common; they differ in the pixel position [px], [py] of the cell:
<<
    v = grid[row, j]
    if v == EMPTY:
        continue
    color = one if v == 1 else zero
    draw.rectangle([px + gap, py + gap, px + cell - gap - 1, py + cell - gap - 1],
                   fill=color)
>> *)
Definition paint_cell (grid : ndarray) (cell gap : Z) (px : nat → Z) (py : Z)
    (row : nat) (one zero : color) (j : nat) (canvas : Canvas) : option Canvas :=
  v ← getitem grid row j;
  if v =? EMPTY then Some canvas
  else
    let color := if v =? 1 then one else zero in
    Some (draw_rectangle canvas
            (px j + gap, py + gap, px j + cell - gap - 1, py + cell - gap - 1)
            color).

(** [row_draw] of [spacetime_gif]: [px = margin + j * cell] and
    [py = margin + r * cell]. *)
Definition row_draw (grid : ndarray) (ncols : nat) (margin cell gap : Z)
    (r : nat) (one zero : color) (canvas : Canvas) : option Canvas :=
  for_each (paint_cell grid cell gap
                       (λ j, margin + Z.of_nat j * cell)
                       (margin + Z.of_nat r * cell) r one zero)
           (seq 0 ncols) canvas.

(** The number of copies of the settled frame appended at the end. *)
Definition HOLD : nat := 30.

(** [spacetime_gif] up to the call of [save]: the frame list handed to the
    encoder and the returned row count.  [nrows - 1] is a [nat]
    subtraction: with no rows Python's index -1 raises as index 0 does. *)
Definition spacetime_gif (n : Z) (accelerated : bool) (target_h : Z)
  : option (list Canvas * nat) :=
  traj ← trajectory n accelerated;
  grid ← binary_grid traj;
  let nrows := shape0 grid in
  let ncols := shape1 grid in
  q ← floordiv target_h (Z.of_nat nrows);
  let cell := Z.max 4 (Z.min 20 q) in
  let gap := if 8 <=? cell then 1 else 0 in
  let margin := 10 in
  let w := Z.of_nat ncols * cell + 2 * margin in
  let h := Z.of_nat nrows * cell + 2 * margin in
  let '(c1, c0) := PAL_DEFAULT in
  let c1_hi := _bright c1 40 in
  let c0_hi := _bright c0 14 in
  let canvas := Image_new w h BG in
  let draw := row_draw grid ncols margin cell gap in
  '(canvas, frames) ←
    for_each (λ r '(canvas, frames),
                canvas ← (if decide (0 < r)%nat then draw (r - 1)%nat c1 c0 canvas
                          else Some canvas);
                canvas ← draw r c1_hi c0_hi canvas;
                Some (canvas, frames ++ [canvas]))
             (seq 0 nrows) (canvas, []);
  canvas ← draw (nrows - 1)%nat c1 c0 canvas;
  let final := canvas in
  Some (frames ++ replicate HOLD final, nrows).

(** The layout loop of [parallel_gif]:
<<
    for g in grids:
        col_offsets.append(off)
        off += g.shape[1] + gap_cols
>> *)
Definition layout (gap_cols : Z) (grids : list ndarray) : list Z * Z :=
  foldl (λ '(col_offsets, off) g,
           (col_offsets ++ [off], off + (Z.of_nat (shape1 g) + gap_cols)))
        ([], 0) grids.

(** [traj_row] of [parallel_gif]: [px = margin + (co + j) * cell] and
    [py = margin + row * cell]. *)
Definition traj_row (grids : list ndarray) (col_offsets : list Z)
    (margin cell gap : Z) (idx row : nat) (highlight : bool) (canvas : Canvas)
  : option Canvas :=
  g ← grids !! idx;
  if decide (shape0 g ≤ row)%nat then Some canvas
  else
    pal ← PAL_MULTI !! (idx mod length PAL_MULTI)%nat;
    let c1 := if highlight then _bright pal.1 35 else pal.1 in
    let c0 := if highlight then _bright pal.2 10 else pal.2 in
    co ← col_offsets !! idx;
    for_each (paint_cell g cell gap
                         (λ j, margin + (co + Z.of_nat j) * cell)
                         (margin + Z.of_nat row * cell) row c1 c0)
             (seq 0 (shape1 g)) canvas.

(** The frame-producing loop of [parallel_gif]:
<<
    for r in range(max_rows):
        for idx in range(len(grids)):
            if r > 0:
                traj_row(idx, r - 1, False)
            traj_row(idx, r, True)
        frames.append(canvas.copy())
>> *)
Definition parallel_loop (grids : list ndarray) (col_offsets : list Z)
    (margin cell gap : Z) (max_rows : nat) (canvas : Canvas)
  : option (Canvas * list Canvas) :=
  for_each (λ r '(canvas, frames),
              canvas ←
                for_each (λ idx canvas,
                            canvas ← (if decide (0 < r)%nat
                                      then traj_row grids col_offsets margin cell gap
                                             idx (r - 1)%nat false canvas
                                      else Some canvas);
                            traj_row grids col_offsets margin cell gap idx r true canvas)
                         (seq 0 (length grids)) canvas;
              Some (canvas, frames ++ [canvas]))
           (seq 0 max_rows) (canvas, []).

(** [parallel_gif] up to the call of [save]: the frame list handed to the
    encoder. *)
Definition parallel_gif (numbers : list Z) (accelerated : bool)
    (cell gap_cols : Z) : option (list Canvas) :=
  trajs ← mapM (λ n, trajectory n accelerated) numbers;
  grids ← mapM binary_grid trajs;
  max_rows ← py_max (shape0 <$> grids);
  let '(col_offsets, off) := layout gap_cols grids in
  let total_cols := off - gap_cols in
  let gap := if 8 <=? cell then 1 else 0 in
  let margin := 10 in
  let w := total_cols * cell + 2 * margin in
  let h := Z.of_nat max_rows * cell + 2 * margin in
  let canvas := Image_new w h BG in
  '(canvas, frames) ←
    parallel_loop grids col_offsets margin cell gap max_rows canvas;
  canvas ←
    for_each (λ idx canvas,
                g ← grids !! idx;
                traj_row grids col_offsets margin cell gap
                         idx (shape0 g - 1)%nat false canvas)
             (seq 0 (length grids)) canvas;
  let final := canvas in
  Some (frames ++ replicate HOLD final).

End Compositor.

Import Compositor.

(** ** The remaining drawing helper and scene builders *)

Module Scenes.
Import Engine Encoder Compositor.

(** [_draw_row]: the row painter that takes its canvas and geometry as
    arguments, with [px = (col_off + j) * cell] and [py = row * cell]. *)
Definition _draw_row (canvas : Canvas) (grid : ndarray) (row : nat)
    (col_off cell gap : Z) (c1 c0 : color) : option Canvas :=
  for_each (paint_cell grid cell gap
                       (λ j, (col_off + Z.of_nat j) * cell)
                       (Z.of_nat row * cell) row c1 c0)
           (seq 0 (shape1 grid)) canvas.

(** The body of the inner loop of [landscape_png]:
<<
    v = grid[i, j]
    if v == EMPTY:
        continue
    color = c1 if v == 1 else c0
    px, py = j * cell, i * cell
    draw.rectangle([px, py, px + cell - 1, py + cell - 1], fill=color)
>> *)
Definition landscape_cell (grid : ndarray) (cell : Z) (c1 c0 : color)
    (i j : nat) (img : Canvas) : option Canvas :=
  v ← getitem grid i j;
  if v =? EMPTY then Some img
  else
    let color := if v =? 1 then c1 else c0 in
    let px := Z.of_nat j * cell in
    let py := Z.of_nat i * cell in
    Some (draw_rectangle img (px, py, px + cell - 1, py + cell - 1) color).

(** [landscape_png] up to the call of [save]: the image handed to the
    encoder. *)
Definition landscape_png (n : Z) (accelerated : bool) (cell : Z) : option Canvas :=
  traj ← trajectory n accelerated;
  grid ← binary_grid traj;
  let nrows := shape0 grid in
  let ncols := shape1 grid in
  let '(c1, c0) := PAL_DEFAULT in
  let w := Z.of_nat ncols * cell in
  let h := Z.of_nat nrows * cell in
  let img := Image_new w h BG in
  for_each (λ i img,
              for_each (landscape_cell grid cell c1 c0 i) (seq 0 ncols) img)
           (seq 0 nrows) img.

(** The data of [stopping_times_plot], which the plotting library receives:
<<
    ns = list(range(2, max_n + 1))
    times = [len(trajectory(n, accelerated=accelerated)) - 1 for n in ns]
>> *)
Definition stopping_times_plot (max_n : Z) (accelerated : bool)
  : option (list Z * list Z) :=
  let ns := seqZ 2 (max_n - 1) in
  times ← mapM (λ n, t ← trajectory n accelerated;
                     Some (Z.of_nat (length t) - 1)) ns;
  Some (ns, times).

End Scenes.

Import Scenes.

(** ** Vocabulary of the statements *)

(** [k] applications of the standard step. *)
Definition iter_collatz (k : nat) (n : Z) : Z := Nat.iter k collatz n.

(** Every element after the first is the step of the element before it. *)
Definition steps_of (accelerated : bool) (path : list Z) : Prop :=
  ∀ i a b, path !! i = Some a → path !! S i = Some b → step accelerated a = Some b.

(** No element but the last is 1: the sequence stops at its first 1. *)
Definition stops_at_first_one (path : list Z) : Prop :=
  ∀ i a, path !! i = Some a → (S i < length path)%nat → a ≠ 1.

(** What holds of [path] each time the loop of [trajectory] tests it. *)
Record trajectory_inv (accelerated : bool) (path : list Z) : Prop := {
  inv_positive : Forall (λ x, 1 ≤ x) path;
  inv_steps : steps_of accelerated path;
  inv_first_one : stops_at_first_one path;
  inv_cap : Z.of_nat (length path) ≤ CAP + 1
}.

(** The binary digits of a positive number, lowest first. *)
Fixpoint lsb_digits (p : positive) : list Z :=
  match p with
  | xH => [1]
  | xO q => 0 :: lsb_digits q
  | xI q => 1 :: lsb_digits q
  end.

(** The binary expansion of [v], highest digit first and without leading
    zeros; empty when [v] is not positive. *)
Definition msb_digits (v : Z) : list Z :=
  match v with
  | Zpos p => reverse (lsb_digits p)
  | _ => []
  end.

(** The number a digit string denotes, continuing from [acc]. *)
Definition msb_value (acc : Z) (digits : list Z) : Z :=
  foldl (λ a b, 2 * a + b) acc digits.

(** A grid whose rows agree with its shape. *)
Definition grid_wf (g : ndarray) : Prop :=
  length (data g) = shape0 g ∧ Forall (λ row, length row = shape1 g) (data g).

(** The number of cells of a row that are not UNSET. *)
Definition count_set (row : list Z) : nat :=
  length (filter (λ c, c ≠ EMPTY) row).

(** The rectangle and colour that painting column [j] issues for a cell
    holding the digit [d]. *)
Definition cell_rect (cell gap : Z) (px : nat → Z) (py : Z) (one zero : color)
    (j : nat) (d : Z) : Z * Z * Z * Z * color :=
  ((px j + gap, py + gap, px j + cell - gap - 1, py + cell - gap - 1),
   if d =? 1 then one else zero).

(** The fills that painting a row of digits issues, left to right. *)
Definition row_rects (cell gap : Z) (px : nat → Z) (py : Z) (one zero : color)
    (digits : list Z) : list (Z * Z * Z * Z * color) :=
  imap (cell_rect cell gap px py one zero) digits.

(** A canvas after further fills. *)
Definition add_fills (c : Canvas) (l : list (Z * Z * Z * Z * color)) : Canvas :=
  mk_Canvas (width c) (height c) (background c) (fills c ++ l).

(** A rectangle that is not empty and lies inside a [w] by [h] image. *)
Definition rect_inside (w h : Z) (fill : Z * Z * Z * Z * color) : Prop :=
  let '(x0, y0, x1, y1, _) := fill in
  0 ≤ x0 ∧ x0 ≤ x1 ∧ x1 < w ∧ 0 ≤ y0 ∧ y0 ≤ y1 ∧ y1 < h.

(** A colour whose channels are bytes. *)
Definition rgb (c : color) : Prop :=
  let '(r, g, b) := c in
  0 ≤ r ≤ 255 ∧ 0 ≤ g ≤ 255 ∧ 0 ≤ b ≤ 255.

(** The sum of a list of integers. *)
Definition sum_listZ (l : list Z) : Z := foldr Z.add 0 l.

(** The fills on the canvas of the single-trajectory animation when row [r]
    has just been highlighted: every earlier row highlighted and then
    settled, in order, and the highlight of row [r]. *)
Definition frame_fills (hi base : nat → list (Z * Z * Z * Z * color)) (r : nat)
  : list (Z * Z * Z * Z * color) :=
  concat ((λ i, hi i ++ base i) <$> seq 0 r) ++ hi r.

(** [c'] is [c] after further painting. *)
Definition extends (c c' : Canvas) : Prop := ∃ l, c' = add_fills c l.

(** The fills that [row_draw] issues for row [r] of the grid of [traj]. *)
Definition spacetime_rects (cell gap : Z) (traj : list Z) (one zero : color)
    (r : nat) : list (Z * Z * Z * Z * color) :=
  row_rects cell gap (λ j, 10 + Z.of_nat j * cell) (10 + Z.of_nat r * cell)
            one zero (from_option msb_digits [] (traj !! r)).

(** The fills that [landscape_png] issues for the trajectory [traj], row
    after row. *)
Definition landscape_rects (cell : Z) (traj : list Z)
  : list (Z * Z * Z * Z * color) :=
  concat (imap (λ i v, row_rects cell 0 (λ j, Z.of_nat j * cell)
                                 (Z.of_nat i * cell)
                                 (232, 160, 32) (20, 34, 56) (msb_digits v))
               traj).

(** The columns a grid takes in the side-by-side layout: its own and the
    gap after it. *)
Definition slot_width (gap_cols : Z) (g : ndarray) : Z :=
  Z.of_nat (shape1 g) + gap_cols.

(** The fills that [traj_row] issues for trajectory [idx] at [row]: none
    when the trajectory has no such row. *)
Definition parallel_rects (cell gap : Z) (trajs : list (list Z))
    (col_offsets : list Z) (idx row : nat) (highlight : bool)
  : list (Z * Z * Z * Z * color) :=
  match trajs !! idx, col_offsets !! idx, PAL_MULTI !! (idx mod 4)%nat with
  | Some t, Some co, Some pal =>
      match t !! row with
      | Some v =>
          row_rects cell gap (λ j, 10 + (co + Z.of_nat j) * cell)
                    (10 + Z.of_nat row * cell)
                    (if highlight then _bright pal.1 35 else pal.1)
                    (if highlight then _bright pal.2 10 else pal.2)
                    (msb_digits v)
      | None => []
      end
  | _, _, _ => []
  end.

(** The fills of time step [r] of the parallel animation: for each
    trajectory in turn, row [r - 1] settled and row [r] highlighted. *)
Definition parallel_step (cell gap : Z) (trajs : list (list Z))
    (col_offsets : list Z) (r : nat) : list (Z * Z * Z * Z * color) :=
  concat ((λ idx, (if decide (0 < r)%nat
                   then parallel_rects cell gap trajs col_offsets idx (r - 1) false
                   else [])
                  ++ parallel_rects cell gap trajs col_offsets idx r true)
          <$> seq 0 (length trajs)).

(** The fills of the closing pass, which settles the last row of every
    trajectory. *)
Definition parallel_settle (cell gap : Z) (trajs : list (list Z))
    (col_offsets : list Z) : list (Z * Z * Z * Z * color) :=
  concat ((λ idx, parallel_rects cell gap trajs col_offsets idx
                                 (from_option length 0%nat (trajs !! idx) - 1) false)
          <$> seq 0 (length trajs)).

(** * Sequence engine: properties *)

(** The model on small inputs. *)
Example collatz_6 : collatz 6 = 3.
Proof. reflexivity. Qed.

Example collatz_7 : collatz 7 = 22.
Proof. reflexivity. Qed.

Example collatz_t3_7 : collatz_t3 7 = Some 11.
Proof. reflexivity. Qed.

Example collatz_t3_12 : collatz_t3 12 = Some 3.
Proof. reflexivity. Qed.

Example trajectory_6 : trajectory 6 false = Some [6; 3; 10; 5; 16; 8; 4; 2; 1].
Proof. vm_compute. reflexivity. Qed.

Example trajectory_6_accelerated : trajectory 6 true = Some [6; 3; 5; 1].
Proof. vm_compute. reflexivity. Qed.

(** The grid of the trajectory of 1 is the single cell ONE. *)
Example binary_grid_1 :
  (trajectory 1 false ≫= binary_grid) = Some (mk_ndarray 1 1 [[1]]).
Proof. vm_compute. reflexivity. Qed.

(** Without a positive value [max] has nothing to choose from. *)
Example binary_grid_no_positive : binary_grid [] = None ∧ binary_grid [0] = None.
Proof. split; reflexivity. Qed.

Section EngineFacts.

Lemma collatz_even (n : Z) : n mod 2 = 0 → collatz n = n / 2.
Proof. intros H. unfold collatz. by rewrite H. Qed.

Lemma collatz_odd (n : Z) : n mod 2 = 1 → collatz n = 3 * n + 1.
Proof. intros H. unfold collatz. by rewrite H. Qed.

Lemma collatz_ge_1 (n : Z) : 2 ≤ n → 1 ≤ collatz n.
Proof.
  intros H. unfold collatz. destruct (Z.eqb_spec (n mod 2) 0) as [E|E].
  - Z.div_mod_to_equations. lia.
  - lia.
Qed.

Lemma iter_collatz_S (k : nat) (n : Z) :
  iter_collatz (S k) n = collatz (iter_collatz k n).
Proof. reflexivity. Qed.

Lemma iter_collatz_add (j k : nat) (n : Z) :
  iter_collatz (j + k) n = iter_collatz j (iter_collatz k n).
Proof. unfold iter_collatz. apply Nat.iter_add. Qed.

Lemma iter_collatz_shift (k : nat) (n : Z) :
  iter_collatz (S k) n = iter_collatz k (collatz n).
Proof.
  replace (S k) with (k + 1)%nat by lia. by rewrite iter_collatz_add.
Qed.

(** *** The halving loop *)

(** More fuel never changes a result. *)
Lemma halve_loop_fuel_mono (fuel fuel' : nat) (n r : Z) :
  halve_loop fuel n = Some r → (fuel ≤ fuel')%nat → halve_loop fuel' n = Some r.
Proof.
  revert fuel' n. induction fuel as [|fuel IH]; intros fuel' n H Hle; [done|].
  destruct fuel' as [|fuel']; [lia|]. simpl in *.
  destruct (n mod 2 =? 0); [|done]. apply IH; [done | lia].
Qed.

(** One test per binary digit is enough on a positive value. *)
Lemma halve_loop_total (p : positive) (fuel : nat) :
  (Pos.size_nat p < fuel)%nat → is_Some (halve_loop fuel (Z.pos p)).
Proof.
  revert fuel. induction p as [p IH|p IH|]; intros fuel Hf;
    (destruct fuel as [|fuel]; [simpl in Hf; lia|]); cbn [halve_loop].
  - replace (Z.pos p~1 mod 2 =? 0) with false; [done|].
    symmetry. apply Z.eqb_neq. rewrite Pos2Z.inj_xI. Z.div_mod_to_equations. lia.
  - replace (Z.pos p~0 mod 2 =? 0) with true.
    + replace (Z.pos p~0 / 2) with (Z.pos p).
      * apply IH. simpl in Hf. lia.
      * rewrite Pos2Z.inj_xO. Z.div_mod_to_equations. lia.
    + symmetry. apply Z.eqb_eq. rewrite Pos2Z.inj_xO. Z.div_mod_to_equations. lia.
  - done.
Qed.

(** The loop returns an odd value, reached from [n] by standard steps
    through even values only. *)
Lemma halve_loop_sound (fuel : nat) (n r : Z) :
  0 < n → halve_loop fuel n = Some r →
  r mod 2 = 1 ∧ 0 < r ∧
  ∃ m, r = iter_collatz m n ∧ ∀ j, (j < m)%nat → iter_collatz j n mod 2 = 0.
Proof.
  revert n. induction fuel as [|fuel IH]; intros n Hn H; [done|].
  simpl in H. destruct (Z.eqb_spec (n mod 2) 0) as [E|E].
  - assert (0 < n / 2) as Hpos by (Z.div_mod_to_equations; lia).
    destruct (IH _ Hpos H) as (Hodd & Hr & m & -> & Hm).
    split_and!; [done..|]. exists (S m). split.
    + by rewrite iter_collatz_shift, (collatz_even n E).
    + intros [|j] Hj; [done|].
      rewrite iter_collatz_shift, (collatz_even n E). apply Hm. lia.
  - injection H as <-. split_and!; [Z.div_mod_to_equations; lia | done |].
    exists 0%nat. split; [done | intros; lia].
Qed.

(** *** The accelerated step *)

Lemma bit_length_pos (v : Z) : 0 < v → ∃ p, v = Z.pos p ∧ bit_length v = Pos.size_nat p.
Proof. destruct v as [|p|p]; [lia | eauto | lia]. Qed.

Lemma collatz_t3_total (n : Z) : is_Some (collatz_t3 n).
Proof.
  unfold collatz_t3. destruct (n <=? 1) eqn:E; [done|].
  apply Z.leb_gt in E.
  set (n1 := if n mod 2 =? 1 then 3 * n + 1 else n).
  assert (0 < n1) as Hn1 by (subst n1; destruct (n mod 2 =? 1); lia).
  destruct (bit_length_pos n1 Hn1) as (p & Hp & Hb).
  unfold digits_fuel. rewrite Hb, Hp. apply halve_loop_total. lia.
Qed.

Lemma collatz_t3_odd (n r : Z) : collatz_t3 n = Some r → r mod 2 = 1 ∧ 1 ≤ r.
Proof.
  unfold collatz_t3. destruct (n <=? 1) eqn:E.
  - intros [= <-]. done.
  - apply Z.leb_gt in E. intros H.
    apply halve_loop_sound in H; [|destruct (n mod 2 =? 1); lia].
    destruct H as (? & ? & _). split; [done | lia].
Qed.

(** From a value above 1 the accelerated step is a non-empty run of standard
    steps that does not pass through 1. *)
Lemma collatz_t3_run (x r : Z) :
  2 ≤ x → collatz_t3 x = Some r →
  ∃ m, (1 ≤ m)%nat ∧ r = iter_collatz m x ∧ ∀ j, (j < m)%nat → iter_collatz j x ≠ 1.
Proof.
  intros Hx. unfold collatz_t3. destruct (x <=? 1) eqn:E; [apply Z.leb_le in E; lia|].
  destruct (Z.eqb_spec (x mod 2) 1) as [Hodd|Heven]; intros H.
  - apply halve_loop_sound in H; [|lia]. destruct H as (_ & _ & m & -> & Hm).
    exists (S m). split_and!; [lia | |].
    + by rewrite iter_collatz_shift, (collatz_odd x Hodd).
    + intros [|j] Hj; [simpl; lia|].
      rewrite iter_collatz_shift, (collatz_odd x Hodd).
      intros E1. specialize (Hm j ltac:(lia)). rewrite E1 in Hm. done.
  - assert (x mod 2 = 0) as Hev by (Z.div_mod_to_equations; lia).
    apply halve_loop_sound in H; [|lia]. destruct H as (Hr & _ & m & -> & Hm).
    exists m. split_and!; [| done |].
    + destruct m; [|lia]. simpl in Hr. lia.
    + intros j Hj E1. specialize (Hm j Hj). rewrite E1 in Hm. done.
Qed.

Lemma step_defined (accelerated : bool) (x : Z) :
  2 ≤ x → ∃ y, step accelerated x = Some y ∧ 1 ≤ y.
Proof.
  intros Hx. destruct accelerated; simpl.
  - destruct (collatz_t3_total x) as [y Hy]. exists y. split; [done|].
    by apply collatz_t3_odd in Hy as [_ ?].
  - eexists. split; [done|]. by apply collatz_ge_1.
Qed.

End EngineFacts.

(** *** The loop of [trajectory] *)

Section TrajectoryLoop.

Variable accelerated : bool.

Lemma trajectory_inv_singleton (n : Z) : 1 ≤ n → trajectory_inv accelerated [n].
Proof.
  intros Hn. split.
  - by apply Forall_singleton.
  - intros [|i] a b Ha Hb; done.
  - intros [|i] a Ha Hi; simpl in Hi; lia.
  - unfold CAP. simpl. lia.
Qed.

(** Appending the step of the last element keeps the invariant as long as
    that element is not 1 and the path is within the bound. *)
Lemma trajectory_inv_snoc (path : list Z) (x y : Z) :
  trajectory_inv accelerated path → last path = Some x → x ≠ 1 →
  step accelerated x = Some y → 1 ≤ y → Z.of_nat (length path) ≤ CAP →
  trajectory_inv accelerated (path ++ [y]).
Proof.
  intros [Hpos Hsteps Hone Hcap] Hlast Hx Hstep Hy Hlen.
  apply last_Some in Hlast as [front ->].
  split.
  - apply Forall_app. split; [done | by apply Forall_singleton].
  - intros i a b Ha Hb.
    destruct (decide (S i < length (front ++ [x]))%nat) as [Hi|Hi].
    + rewrite lookup_app_l in Ha by lia. rewrite lookup_app_l in Hb by lia. eauto.
    + assert (i < length (front ++ [x]))%nat as Hi'.
      { apply lookup_lt_Some in Ha. apply lookup_lt_Some in Hb.
        rewrite !length_app in *. simpl in *. lia. }
      rewrite length_app in Hi, Hi'. simpl in Hi, Hi'.
      assert (i = length front) as -> by lia.
      rewrite lookup_app_l in Ha by (rewrite length_app; simpl; lia).
      rewrite list_lookup_middle in Ha by done. injection Ha as <-.
      rewrite lookup_app_r in Hb by (rewrite length_app; simpl; lia).
      rewrite length_app in Hb. simpl in Hb.
      replace (S (length front) - (length front + 1))%nat with 0%nat in Hb by lia.
      injection Hb as <-. done.
  - intros i a Ha Hi. rewrite !length_app in Hi. simpl in Hi.
    destruct (decide (i = length front)) as [->|Hne].
    + rewrite lookup_app_l in Ha by (rewrite length_app; simpl; lia).
      rewrite list_lookup_middle in Ha by done. by injection Ha as <-.
    + rewrite lookup_app_l in Ha by (rewrite length_app; simpl; lia).
      apply (Hone i a Ha). rewrite length_app. simpl. lia.
  - rewrite length_app. simpl. lia.
Qed.

(** With fuel for every element still allowed the loop returns: it stops at
    the first 1 or at [CAP + 1] elements, and the invariant holds of what it
    returns, which extends the path it started from. *)
Lemma trajectory_loop_spec (fuel : nat) (path : list Z) :
  path ≠ [] → trajectory_inv accelerated path →
  Z.of_nat (length path) ≤ CAP →
  CAP + 1 ≤ Z.of_nat fuel + Z.of_nat (length path) →
  ∃ out, trajectory_loop accelerated fuel path = Some out
         ∧ (∃ ext, out = path ++ ext)
         ∧ trajectory_inv accelerated out
         ∧ (last out = Some 1 ∨ Z.of_nat (length out) = CAP + 1).
Proof.
  revert path. induction fuel as [|fuel IH]; intros path Hne Hinv Hlen Hfuel; [lia|].
  cbn [trajectory_loop].
  destruct (last path) as [x|] eqn:Hlast; [|by apply last_None in Hlast].
  cbn [mbind option_bind].
  destruct (Z.eqb_spec x 1) as [->|Hx].
  - exists path. split_and!; [done | by exists []; rewrite app_nil_r | done | by left].
  - assert (1 ≤ x) as Hx1.
    { apply last_Some in Hlast as [front ->].
      destruct Hinv as [Hpos _ _ _]. apply Forall_app in Hpos as [_ Hpos].
      by inversion Hpos. }
    destruct (step_defined accelerated x ltac:(lia)) as (y & Hy & Hy1).
    rewrite Hy. cbn [mbind option_bind].
    pose proof (trajectory_inv_snoc path x y Hinv Hlast Hx Hy Hy1 Hlen) as Hinv'.
    destruct (Z.ltb_spec CAP (Z.of_nat (length (path ++ [y])))) as [Hbig|Hsmall].
    + exists (path ++ [y]). split_and!; [done | by eexists | done |].
      right. rewrite length_app in *. simpl in *. lia.
    + destruct (IH (path ++ [y])) as (out & Hout & [ext ->] & Hinv'' & Hend).
      * by destruct path.
      * done.
      * done.
      * rewrite length_app. simpl. lia.
      * exists ((path ++ [y]) ++ ext). split_and!; [done | | done | done].
        exists ([y] ++ ext). by rewrite app_assoc.
Qed.

(** More fuel never changes what the loop returns. *)
Lemma trajectory_loop_fuel_mono (fuel fuel' : nat) (path out : list Z) :
  trajectory_loop accelerated fuel path = Some out → (fuel ≤ fuel')%nat →
  trajectory_loop accelerated fuel' path = Some out.
Proof.
  revert fuel' path. induction fuel as [|fuel IH]; intros fuel' path H Hle; [done|].
  destruct fuel' as [|fuel']; [lia|]. cbn [trajectory_loop] in *.
  destruct (last path) as [x|]; [|done]. cbn [mbind option_bind] in *.
  destruct (x =? 1); [done|].
  destruct (step accelerated x) as [y|]; [|done]. cbn [mbind option_bind] in *.
  destruct (CAP <? Z.of_nat (length (path ++ [y]))); [done|].
  apply IH; [done | lia].
Qed.

(** [trajectory] returns on every integer and for either rule. *)
Lemma trajectory_spec (n : Z) :
  ∃ out, trajectory n accelerated = Some out
         ∧ (∃ ext, out = n :: ext)
         ∧ (n ≤ 1 → out = [n])
         ∧ (1 ≤ n → trajectory_inv accelerated out
                    ∧ (last out = Some 1 ∨ Z.of_nat (length out) = CAP + 1)).
Proof.
  unfold trajectory. destruct (Z.leb_spec n 1) as [Hle|Hgt].
  - exists [n]. split_and!; [done | by exists [] | done |].
    intros Hn. assert (n = 1) as -> by lia.
    split; [by apply trajectory_inv_singleton | by left].
  - destruct (trajectory_loop_spec loop_fuel [n]) as (out & Hout & [ext ->] & Hinv & Hend).
    + done.
    + apply trajectory_inv_singleton. lia.
    + unfold CAP. simpl. lia.
    + unfold loop_fuel, CAP. rewrite Z2Nat.id by lia. simpl. lia.
    + exists ([n] ++ ext). split_and!; [done | by exists ext | lia | done].
Qed.

End TrajectoryLoop.

(** *** Trajectories as orbits of the standard step *)

Section Orbits.

Lemma std_path_iter (path : list Z) (n : Z) :
  steps_of false path → path !! 0%nat = Some n →
  ∀ i a, path !! i = Some a → a = iter_collatz i n.
Proof.
  intros Hsteps H0 i. induction i as [|i IH]; intros a Ha.
  - rewrite H0 in Ha. by injection Ha as <-.
  - destruct (lookup_lt_is_Some_2 path i) as [b Hb].
    { apply lookup_lt_Some in Ha. lia. }
    pose proof (Hsteps i b a Hb Ha) as Hs. simpl in Hs. injection Hs as <-.
    by rewrite iter_collatz_S, <- (IH b Hb).
Qed.

(** Element [i] of an accelerated trajectory lies at least [i] standard
    steps down the orbit of [n], and the orbit has not met 1 before it. *)
Lemma acc_path_iter (path : list Z) (n : Z) :
  trajectory_inv true path → path !! 0%nat = Some n →
  ∀ i a, path !! i = Some a →
  ∃ m, (i ≤ m)%nat ∧ a = iter_collatz m n ∧ ∀ j, (j < m)%nat → iter_collatz j n ≠ 1.
Proof.
  intros [Hpos Hsteps Hone _] H0 i. induction i as [|i IH]; intros a Ha.
  - exists 0%nat. rewrite H0 in Ha. injection Ha as <-.
    split_and!; [done | done | intros; lia].
  - destruct (lookup_lt_is_Some_2 path i) as [b Hb].
    { apply lookup_lt_Some in Ha. lia. }
    destruct (IH b Hb) as (m & Hm & -> & Hbefore).
    assert (iter_collatz m n ≠ 1) as Hne.
    { apply (Hone i _ Hb). by apply lookup_lt_Some in Ha. }
    assert (1 ≤ iter_collatz m n) as Hge.
    { rewrite Forall_forall in Hpos. apply Hpos. by eapply list_elem_of_lookup_2. }
    pose proof (Hsteps i _ a Hb Ha) as Hs. simpl in Hs.
    apply collatz_t3_run in Hs as (m' & Hm' & -> & Hrun); [|lia].
    exists (m' + m)%nat. split_and!; [lia | by rewrite iter_collatz_add |].
    intros j Hj. destruct (decide (j < m)%nat) as [Hlt|Hge']; [by apply Hbefore|].
    replace j with ((j - m) + m)%nat by lia. rewrite iter_collatz_add.
    apply Hrun. lia.
Qed.

Lemma iter_collatz_pow2 (i : nat) (k : Z) :
  Z.of_nat i ≤ k → iter_collatz i (2 ^ k) = 2 ^ (k - Z.of_nat i).
Proof.
  induction i as [|i IH]; intros Hk.
  - simpl. f_equal. lia.
  - rewrite iter_collatz_S, IH by lia.
    replace (k - Z.of_nat i) with (Z.succ (k - Z.of_nat (S i))) by lia.
    rewrite Z.pow_succ_r by lia.
    rewrite collatz_even.
    + rewrite Z.mul_comm. apply Z.div_mul. lia.
    + rewrite Z.mul_comm. apply Z.mod_mul. lia.
Qed.

(** A power of two above [2 ^ CAP] is still above 1 when the bound cuts
    its trajectory. *)
Lemma trajectory_pow2_capped (k : Z) :
  CAP < k →
  ∃ out, trajectory (2 ^ k) false = Some out
         ∧ Z.of_nat (length out) = CAP + 1
         ∧ last out = Some (2 ^ (k - CAP)).
Proof.
  intros Hk. assert (0 ≤ CAP) as Hcap by (unfold CAP; lia).
  assert (1 ≤ 2 ^ k) as Hpos by (pose proof (Z.pow_pos_nonneg 2 k); lia).
  destruct (trajectory_spec false (2 ^ k)) as (out & Hout & [ext ->] & _ & Hinv).
  destruct (Hinv Hpos) as [[_ Hsteps _ Hlen] Hend].
  exists (2 ^ k :: ext). split; [done|].
  assert (∀ a, last (2 ^ k :: ext) = Some a →
               a = 2 ^ (k - Z.of_nat (length ext))) as Hlast.
  { intros a Ha. rewrite last_lookup in Ha. simpl in Ha.
    rewrite (std_path_iter _ _ Hsteps eq_refl _ _ Ha).
    apply iter_collatz_pow2. simpl in Hlen. lia. }
  assert (Z.of_nat (length (2 ^ k :: ext)) = CAP + 1) as Hfull.
  { destruct Hend as [H1|]; [|done]. apply Hlast in H1.
    simpl in Hlen.
    pose proof (Z.pow_le_mono_r 2 1 (k - Z.of_nat (length ext))) as Hmono.
    rewrite <- H1 in Hmono. simpl in Hmono. lia. }
  split; [done|].
  destruct (last (2 ^ k :: ext)) as [a|] eqn:Ha; [|by apply last_None in Ha].
  rewrite (Hlast a eq_refl). do 2 f_equal. simpl in Hfull. lia.
Qed.

End Orbits.

(** * Sequence engine: the claims *)

(** C9. For every integer [n ≤ 1] and either rule, [trajectory(n, rule)]
    returns the one-element sequence [[n]]. *)
Theorem trajectory_degenerate (n : Z) (accelerated : bool) :
  n ≤ 1 → trajectory n accelerated = Some [n].
Proof.
  intros Hn. destruct (trajectory_spec accelerated n) as (out & -> & _ & Hone & _).
  by rewrite Hone.
Qed.

Lemma trajectory_degenerate_witness :
  -4 ≤ 1 ∧ trajectory (-4) true = Some [-4].
Proof. split; [lia | apply trajectory_degenerate; lia]. Defined.

(** C7. [trajectory(27, STANDARD)] has exactly 112 elements, the last of
    which is 1, and [trajectory(27, ACCELERATED)] has strictly fewer
    elements. *)
Theorem trajectory_27 :
  ∃ std acc, trajectory 27 false = Some std ∧ trajectory 27 true = Some acc
             ∧ length std = 112%nat ∧ last std = Some 1
             ∧ (length acc < length std)%nat.
Proof.
  destruct (trajectory 27 false) as [std|] eqn:Hstd; [|by vm_compute in Hstd].
  destruct (trajectory 27 true) as [acc|] eqn:Hacc; [|by vm_compute in Hacc].
  exists std, acc. vm_compute in Hstd, Hacc.
  injection Hstd as <-. injection Hacc as <-.
  split_and!; [done | done | done | done | vm_compute; lia].
Qed.

(** C6. For every [n ≥ 1] and either rule, [trajectory(n, rule)] starts at
    [n], all its elements are at least 1, and every element after the
    first is the stepping rule applied to the element before it. *)
Theorem trajectory_iterates (n : Z) (accelerated : bool) :
  1 ≤ n →
  ∃ path, trajectory n accelerated = Some path
          ∧ path !! 0%nat = Some n
          ∧ Forall (λ x, 1 ≤ x) path
          ∧ ∀ i a b, path !! i = Some a → path !! S i = Some b →
                     step accelerated a = Some b.
Proof.
  intros Hn.
  destruct (trajectory_spec accelerated n) as (out & Hout & [ext ->] & _ & Hinv).
  destruct (Hinv Hn) as [[Hpos Hsteps _ _] _].
  exists (n :: ext). done.
Qed.

Lemma trajectory_iterates_witness :
  1 ≤ 7 ∧
  ∃ path, trajectory 7 true = Some path
          ∧ path !! 0%nat = Some 7
          ∧ Forall (λ x, 1 ≤ x) path
          ∧ ∀ i a b, path !! i = Some a → path !! S i = Some b →
                     step true a = Some b.
Proof. split; [lia | apply trajectory_iterates; lia]. Defined.

(** C10. [collatz_t3(n)] is odd for every integer [n]; hence, for every
    [n ≥ 2], every element after the first of [trajectory(n, ACCELERATED)]
    is odd. *)
Theorem accelerated_odd :
  (∀ n, ∃ r, collatz_t3 n = Some r ∧ r mod 2 = 1)
  ∧ (∀ n, 2 ≤ n →
       ∃ path, trajectory n true = Some path
               ∧ ∀ i x, (0 < i)%nat → path !! i = Some x → x mod 2 = 1).
Proof.
  split.
  - intros n. destruct (collatz_t3_total n) as [r Hr]. exists r.
    split; [done|]. by apply collatz_t3_odd in Hr as [? _].
  - intros n Hn.
    destruct (trajectory_spec true n) as (out & Hout & _ & _ & Hinv).
    destruct (Hinv ltac:(lia)) as [[_ Hsteps _ _] _].
    exists out. split; [done|]. intros [|i] x Hi Hx; [lia|].
    destruct (lookup_lt_is_Some_2 out i) as [b Hb].
    { apply lookup_lt_Some in Hx. lia. }
    pose proof (Hsteps i b x Hb Hx) as Hs. simpl in Hs.
    by apply collatz_t3_odd in Hs as [? _].
Qed.

Lemma accelerated_odd_witness :
  2 ≤ 27 ∧
  ∃ path, trajectory 27 true = Some path
          ∧ ∀ i x, (0 < i)%nat → path !! i = Some x → x mod 2 = 1.
Proof. split; [lia | apply (proj2 accelerated_odd 27); lia]. Defined.

(** C2, as the code has it.  For every [n ≥ 1], [trajectory(n, STANDARD)]
    ends with 1 or has exactly 50,001 elements (50,000 steps); it never
    has more, and no element before the last is 1, so whichever comes
    first ends it. *)
Theorem trajectory_standard_stops (n : Z) :
  1 ≤ n →
  ∃ path, trajectory n false = Some path
          ∧ (last path = Some 1 ∨ Z.of_nat (length path) = 50001)
          ∧ Z.of_nat (length path) ≤ 50001
          ∧ ∀ i a, path !! i = Some a → (S i < length path)%nat → a ≠ 1.
Proof.
  intros Hn.
  destruct (trajectory_spec false n) as (out & Hout & _ & _ & Hinv).
  destruct (Hinv Hn) as [[_ _ Hone Hlen] Hend].
  exists out. unfold CAP in *. done.
Qed.

Lemma trajectory_standard_stops_witness :
  1 ≤ 27 ∧
  ∃ path, trajectory 27 false = Some path
          ∧ (last path = Some 1 ∨ Z.of_nat (length path) = 50001)
          ∧ Z.of_nat (length path) ≤ 50001
          ∧ ∀ i a, path !! i = Some a → (S i < length path)%nat → a ≠ 1.
Proof. split; [lia | apply trajectory_standard_stops; lia]. Defined.

(** C2, as stated, fails: the trajectory of [2 ^ 50001] is cut after 50,001
    elements, so it neither ends with 1 nor has exactly 50,000 elements. *)
Lemma trajectory_cap_counterexample :
  1 ≤ 2 ^ 50001
  ∧ ¬ ∃ path, trajectory (2 ^ 50001) false = Some path
              ∧ (last path = Some 1 ∨ Z.of_nat (length path) = 50000).
Proof.
  split; [pose proof (Z.pow_pos_nonneg 2 50001); lia|].
  destruct (trajectory_pow2_capped 50001) as (out & Hout & Hlen & Hlast).
  { unfold CAP. lia. }
  change (2 ^ (50001 - CAP)) with 2 in Hlast. unfold CAP in Hlen.
  intros (path & Hpath & Hend). rewrite Hout in Hpath. injection Hpath as <-.
  destruct Hend as [H1|H2].
  - rewrite Hlast in H1. discriminate H1.
  - lia.
Qed.

(** C3. For every integer [n], [trajectory(n, ACCELERATED)] is at most as
    long as [trajectory(n, STANDARD)]. *)
Theorem accelerated_not_longer (n : Z) :
  ∃ acc std, trajectory n true = Some acc ∧ trajectory n false = Some std
             ∧ (length acc ≤ length std)%nat.
Proof.
  destruct (trajectory_spec true n) as (acc & Hacc & [exta ->] & Hone_a & Hinv_a).
  destruct (trajectory_spec false n) as (std & Hstd & [exts ->] & Hone_s & Hinv_s).
  exists (n :: exta), (n :: exts). split_and!; [done..|].
  destruct (Z.le_gt_cases n 1) as [Hle|Hgt].
  - rewrite (Hone_a Hle), (Hone_s Hle). done.
  - destruct (Hinv_a ltac:(lia)) as [Ha _].
    destruct (Hinv_s ltac:(lia)) as [[_ Hsteps _ _] Hend].
    destruct (decide (length (n :: exta) ≤ length (n :: exts))%nat) as [|Hlonger];
      [done | exfalso].
    pose proof (inv_cap _ _ Ha) as Hcap.
    destruct Hend as [Hlast|Hfull]; [|lia].
    rewrite last_lookup in Hlast.
    apply (std_path_iter _ n Hsteps eq_refl) in Hlast.
    destruct (lookup_lt_is_Some_2 (n :: exta) (pred (length (n :: exta))))
      as [a Hlook]; [simpl; lia|].
    destruct (acc_path_iter _ n Ha eq_refl _ _ Hlook) as (m & Hm & _ & Hbefore).
    apply (Hbefore (pred (length (n :: exts)))); [simpl in *; lia | done].
Qed.

(** * Bit-grid encoder: properties *)

Section LoopFacts.

Context {A S : Type}.

(** A [for] loop over a range keeps an invariant indexed by the position
    reached, provided each iteration carries it one position on. *)
Lemma for_each_seq_inv (Q : nat → S → Prop) (body : nat → S → option S)
    (start len : nat) (s : S) :
  Q start s →
  (∀ k s, (start ≤ k < start + len)%nat → Q k s →
          ∃ s', body k s = Some s' ∧ Q (Datatypes.S k) s') →
  ∃ s', for_each body (seq start len) s = Some s' ∧ Q (start + len)%nat s'.
Proof.
  revert start s. induction len as [|len IH]; intros start s Hs Hbody.
  - exists s. rewrite Nat.add_0_r. done.
  - simpl. destruct (Hbody start s ltac:(lia) Hs) as (s1 & -> & Hs1). simpl.
    destruct (IH (Datatypes.S start) s1 Hs1) as (s' & Hrun & Hs').
    { intros k s2 Hk. apply Hbody. lia. }
    exists s'. split; [done|]. by replace (start + Datatypes.S len)%nat
      with (Datatypes.S start + len)%nat by lia.
Qed.

Lemma py_max_None (l : list nat) : py_max l = None ↔ l = [].
Proof. by destruct l. Qed.

End LoopFacts.

Lemma foldl_max_spec (l : list nat) (x : nat) :
  (x ≤ foldl Nat.max x l)%nat
  ∧ (∀ y, y ∈ l → y ≤ foldl Nat.max x l)%nat
  ∧ (foldl Nat.max x l = x ∨ foldl Nat.max x l ∈ l).
Proof.
  revert x. induction l as [|a l IH]; intros x; simpl.
  - split_and!; [done | by intros y ?%elem_of_nil | by left].
  - destruct (IH (x `max` a)%nat) as (Hx & Hall & Hin). split_and!.
    + lia.
    + intros y [->|Hy]%elem_of_cons; [lia | by apply Hall].
    + destruct Hin as [Heq|Hin]; [|right; by right].
      rewrite Heq. destruct (Nat.max_spec x a) as [[_ ->]|[_ ->]];
        [right; by left | by left].
Qed.

(** [max] returns an element of the list that bounds every other. *)
Lemma py_max_spec (l : list nat) (m : nat) :
  py_max l = Some m → m ∈ l ∧ ∀ y, y ∈ l → (y ≤ m)%nat.
Proof.
  destruct l as [|x l]; [done|]. simpl. intros [= <-].
  destruct (foldl_max_spec l x) as (Hx & Hall & Hin). split.
  - destruct Hin as [->|Hin]; [by left | by right].
  - intros y [->|Hy]%elem_of_cons; [done | by apply Hall].
Qed.

Section GridFacts.

Lemma np_full_wf (rows cols : nat) (fill : Z) : grid_wf (np_full rows cols fill).
Proof.
  split; simpl.
  - by rewrite length_replicate.
  - apply Forall_replicate. by rewrite length_replicate.
Qed.

Lemma getitem_np_full (rows cols : nat) (fill : Z) (i j : nat) :
  (i < rows)%nat → (j < cols)%nat → getitem (np_full rows cols fill) i j = Some fill.
Proof.
  intros Hi Hj. unfold getitem. simpl. rewrite decide_True by done.
  rewrite lookup_replicate_2 by done. simpl. by rewrite lookup_replicate_2.
Qed.

Lemma getitem_row (g : ndarray) (i j : nat) (row : list Z) :
  grid_wf g → data g !! i = Some row → (j < shape1 g)%nat → getitem g i j = row !! j.
Proof.
  intros [Hrows _] Hrow Hj. unfold getitem.
  rewrite decide_True; [by rewrite Hrow|].
  split; [|done]. apply lookup_lt_Some in Hrow. lia.
Qed.

Lemma getitem_outside (g : ndarray) (i j : nat) :
  (shape0 g ≤ i ∨ shape1 g ≤ j)%nat → getitem g i j = None.
Proof. intros H. unfold getitem. rewrite decide_False; [done | lia]. Qed.

(** An assignment in range succeeds, keeps the shape and changes the one
    cell. *)
Lemma setitem_spec (g : ndarray) (i j : nat) (b : Z) :
  grid_wf g → (i < shape0 g)%nat → (j < shape1 g)%nat →
  ∃ g', setitem g i j b = Some g' ∧ grid_wf g'
        ∧ shape0 g' = shape0 g ∧ shape1 g' = shape1 g
        ∧ ∀ i' j', getitem g' i' j' =
                   if decide (i' = i ∧ j' = j) then Some b else getitem g i' j'.
Proof.
  intros [Hrows Hcols] Hi Hj. unfold setitem. rewrite decide_True by done.
  eexists. split; [done|]. split_and!; [|done|done|].
  - split; simpl.
    + by rewrite length_alter.
    + rewrite Forall_lookup in Hcols. apply Forall_lookup. intros k row Hk.
      destruct (decide (k = i)) as [->|Hne].
      * rewrite list_lookup_alter_eq in Hk.
        destruct (data g !! i) as [row0|] eqn:Hrow0; simpl in Hk; [|done].
        injection Hk as <-. rewrite length_insert. by eapply Hcols.
      * rewrite list_lookup_alter_ne in Hk by congruence. by eapply Hcols.
  - intros i' j'. unfold getitem. simpl.
    destruct (decide (i' < shape0 g ∧ j' < shape1 g)%nat) as [[Hi' Hj']|Hout].
    + destruct (decide (i' = i)) as [->|Hne].
      * rewrite list_lookup_alter_eq.
        destruct (lookup_lt_is_Some_2 (data g) i ltac:(lia)) as [row Hrow].
        rewrite Hrow. simpl.
        assert (length row = shape1 g) as Hlen.
        { rewrite Forall_lookup in Hcols. by eapply Hcols. }
        destruct (decide (j' = j)) as [->|Hnej].
        -- rewrite decide_True by done. apply list_lookup_insert_eq. lia.
        -- rewrite decide_False by (intros [_ ?]; done).
           by apply list_lookup_insert_ne.
      * rewrite decide_False by (intros [? _]; done).
        by rewrite list_lookup_alter_ne by congruence.
    + destruct (decide (i' = i ∧ j' = j)) as [[-> ->]|_]; [|done].
      exfalso. apply Hout. done.
Qed.

End GridFacts.

(** *** Binary digits *)

Section Digits.

Lemma lsb_digits_length (p : positive) : length (lsb_digits p) = Pos.size_nat p.
Proof. induction p; simpl; congruence. Qed.

Lemma lsb_digits_binary (p : positive) : Forall (λ d, d = 0 ∨ d = 1) (lsb_digits p).
Proof.
  induction p as [p IH|p IH|]; simpl.
  - apply Forall_cons. auto.
  - apply Forall_cons. auto.
  - apply Forall_singleton. auto.
Qed.

Lemma msb_value_snoc (acc : Z) (digits : list Z) (d : Z) :
  msb_value acc (digits ++ [d]) = 2 * msb_value acc digits + d.
Proof. unfold msb_value. by rewrite foldl_app. Qed.

Lemma msb_value_lsb_digits (p : positive) :
  msb_value 0 (reverse (lsb_digits p)) = Z.pos p.
Proof.
  induction p as [p IH|p IH|]; simpl; [| |done];
    rewrite reverse_cons, msb_value_snoc, IH; lia.
Qed.

Lemma msb_digits_length (v : Z) : 0 < v → length (msb_digits v) = bit_length v.
Proof.
  destruct v as [|p|p]; [lia | | lia]. intros _. simpl.
  by rewrite length_reverse, lsb_digits_length.
Qed.

Lemma msb_digits_nonpos (v : Z) : v ≤ 0 → msb_digits v = [].
Proof. destruct v; [done | lia | done]. Qed.

Lemma msb_digits_binary (v : Z) : Forall (λ d, d = 0 ∨ d = 1) (msb_digits v).
Proof.
  destruct v as [|p|p]; simpl; [constructor | | constructor].
  apply Forall_reverse, lsb_digits_binary.
Qed.

Lemma msb_digits_value (v : Z) : 0 < v → msb_value 0 (msb_digits v) = v.
Proof. destruct v as [|p|p]; [lia | | lia]. intros _. apply msb_value_lsb_digits. Qed.

(** [bit_length] is the [floor(log2 v) + 1] of the design. *)
Lemma bit_length_log2 (v : Z) : 0 < v → Z.of_nat (bit_length v) = Z.log2 v + 1.
Proof.
  destruct v as [|p|p]; [lia | | lia]. intros _. simpl.
  induction p as [p IH|p IH|]; simpl; [| |done].
  - destruct p; simpl in *; lia.
  - destruct p; simpl in *; lia.
Qed.

(** The peeling loop on a positive value: with a test per digit and one
    more it returns the digits, lowest first. *)
Lemma bits_loop_pos (p : positive) (fuel : nat) (acc : list Z) :
  (Pos.size_nat p < fuel)%nat →
  bits_loop fuel (Z.pos p) acc = Some (acc ++ lsb_digits p).
Proof.
  revert fuel acc. induction p as [p IH|p IH|]; intros fuel acc Hf;
    (destruct fuel as [|fuel]; [simpl in Hf; lia|]); cbn [bits_loop].
  - change (0 <? Z.pos p~1) with true. cbn iota.
    change (Z.shiftr (Z.pos p~1) 1) with (Z.pos p).
    change (Z.land (Z.pos p~1) 1) with 1.
    rewrite IH by (simpl in Hf; lia). by rewrite <- app_assoc.
  - change (0 <? Z.pos p~0) with true. cbn iota.
    change (Z.shiftr (Z.pos p~0) 1) with (Z.pos p).
    change (Z.land (Z.pos p~0) 1) with 0.
    rewrite IH by (simpl in Hf; lia). by rewrite <- app_assoc.
  - change (0 <? 1) with true. cbn iota.
    change (Z.shiftr 1 1) with 0. change (Z.land 1 1) with 1.
    destruct fuel as [|fuel]; [simpl in Hf; lia|]. done.
Qed.

Lemma bits_loop_fuel_mono (fuel fuel' : nat) (v : Z) (acc out : list Z) :
  bits_loop fuel v acc = Some out → (fuel ≤ fuel')%nat →
  bits_loop fuel' v acc = Some out.
Proof.
  revert fuel' v acc. induction fuel as [|fuel IH]; intros fuel' v acc H Hle; [done|].
  destruct fuel' as [|fuel']; [lia|]. simpl in *.
  destruct (0 <? v); [|done]. apply IH; [done | lia].
Qed.

(** The digits [binary_grid] writes for [val], after its [reverse]. *)
Lemma bits_loop_digits (val : Z) :
  ∃ bits, bits_loop (digits_fuel val) val [] = Some bits
          ∧ reverse bits = msb_digits val.
Proof.
  destruct val as [|p|p].
  - by exists [].
  - exists (lsb_digits p). split; [|done].
    unfold digits_fuel. simpl bit_length. rewrite bits_loop_pos by lia. done.
  - by exists [].
Qed.

End Digits.

(** *** The loops of [binary_grid] *)

Section EncoderLoops.

(** Writing a digit string into row [i] from column [k] on. *)
Lemma write_digits_spec (i : nat) (digits : list Z) (k : nat) (g : ndarray) :
  grid_wf g → (i < shape0 g)%nat → (k + length digits ≤ shape1 g)%nat →
  ∃ g', for_each (λ '(j, b) grid, setitem grid i j b) (enumerate_from k digits) g
          = Some g'
        ∧ grid_wf g' ∧ shape0 g' = shape0 g ∧ shape1 g' = shape1 g
        ∧ ∀ i' j', getitem g' i' j' =
                   if decide (i' = i ∧ k ≤ j' < k + length digits)%nat
                   then digits !! (j' - k)%nat else getitem g i' j'.
Proof.
  revert k g. induction digits as [|b digits IH]; intros k g Hwf Hi Hk.
  - exists g. split_and!; [done..|]. intros i' j'.
    rewrite decide_False; [done | simpl; lia].
  - simpl in Hk. cbn [enumerate_from for_each].
    destruct (setitem_spec g i k b Hwf Hi ltac:(lia)) as (g1 & -> & Hwf1 & H0 & H1 & Hget1).
    cbn [mbind option_bind].
    destruct (IH (S k) g1 Hwf1 ltac:(lia) ltac:(lia)) as (g' & -> & Hwf' & H0' & H1' & Hget').
    exists g'. split_and!; [done | done | congruence | congruence |].
    intros i' j'. rewrite Hget', Hget1. simpl length.
    repeat case_decide; try done; try (exfalso; lia).
    + replace (j' - k)%nat with (S (j' - S k)) by lia. done.
    + replace (j' - k)%nat with 0%nat by lia. done.
Qed.

Lemma encode_row_spec (i : nat) (val : Z) (g : ndarray) :
  grid_wf g → (i < shape0 g)%nat → (length (msb_digits val) ≤ shape1 g)%nat →
  ∃ g', encode_row (i, val) g = Some g'
        ∧ grid_wf g' ∧ shape0 g' = shape0 g ∧ shape1 g' = shape1 g
        ∧ ∀ i' j', getitem g' i' j' =
                   if decide (i' = i ∧ j' < length (msb_digits val))%nat
                   then msb_digits val !! j' else getitem g i' j'.
Proof.
  intros Hwf Hi Hlen. unfold encode_row.
  destruct (bits_loop_digits val) as (bits & -> & Hrev).
  cbn [mbind option_bind]. cbv zeta. rewrite Hrev.
  destruct (write_digits_spec i (msb_digits val) 0 g Hwf Hi ltac:(lia))
    as (g' & Hrun & Hwf' & H0 & H1 & Hget).
  exists g'. split_and!; [done..|].
  intros i' j'. rewrite Hget. rewrite Nat.sub_0_r.
  repeat case_decide; try done; exfalso; lia.
Qed.

(** Encoding the rows [k, k + 1, ...] with the values of [traj]. *)
Lemma encode_rows_spec (traj : list Z) (k : nat) (g : ndarray) :
  grid_wf g → (k + length traj ≤ shape0 g)%nat →
  Forall (λ v, length (msb_digits v) ≤ shape1 g)%nat traj →
  ∃ g', for_each encode_row (enumerate_from k traj) g = Some g'
        ∧ grid_wf g' ∧ shape0 g' = shape0 g ∧ shape1 g' = shape1 g
        ∧ ∀ i' j', getitem g' i' j' =
                   match (if decide (k ≤ i')%nat then traj !! (i' - k)%nat else None) with
                   | Some v => if decide (j' < length (msb_digits v))%nat
                               then msb_digits v !! j' else getitem g i' j'
                   | None => getitem g i' j'
                   end.
Proof.
  revert k g. induction traj as [|v traj IH]; intros k g Hwf Hk Hfit.
  - exists g. split_and!; [done..|]. intros i' j'. by case_decide.
  - simpl in Hk. apply Forall_cons in Hfit as [Hv Hfit]. cbn [enumerate_from for_each].
    destruct (encode_row_spec k v g Hwf ltac:(lia) Hv) as (g1 & -> & Hwf1 & H0 & H1 & Hget1).
    cbn [mbind option_bind].
    destruct (IH (S k) g1 Hwf1 ltac:(lia)) as (g' & -> & Hwf' & H0' & H1' & Hget').
    { by rewrite H1. }
    exists g'. split_and!; [done | done | congruence | congruence |].
    intros i' j'. rewrite Hget'.
    destruct (decide (S k ≤ i')%nat) as [Hgt|Hle].
    + rewrite (decide_True (P := (k ≤ i')%nat)) by lia.
      replace (i' - k)%nat with (S (i' - S k)) by lia. simpl.
      rewrite Hget1. rewrite (decide_False (P := (i' = k ∧ _)%nat)) by lia. done.
    + rewrite Hget1. destruct (decide (i' = k)) as [->|Hne].
      * rewrite (decide_True (P := (k ≤ k)%nat)) by lia. rewrite Nat.sub_diag. simpl.
        case_decide; [by rewrite decide_True by lia | by rewrite decide_False by lia].
      * rewrite (decide_False (P := (k ≤ i')%nat)) by lia.
        rewrite decide_False by lia. done.
Qed.

End EncoderLoops.

(** *** [binary_grid] as a whole *)

Section BinaryGrid.

(** The common width is enough for every row. *)
Lemma digits_fit (traj : list Z) (max_bits : nat) :
  py_max (bit_length <$> filter (λ v, 0 < v) traj) = Some max_bits →
  Forall (λ v, length (msb_digits v) ≤ max_bits)%nat traj.
Proof.
  intros Hmax. apply py_max_spec in Hmax as [_ Hbound].
  apply Forall_forall. intros v Hv.
  destruct (Z.lt_ge_cases 0 v) as [Hpos|Hnp].
  - rewrite msb_digits_length by done. apply Hbound.
    apply list_elem_of_fmap_2. by apply list_elem_of_filter.
  - rewrite msb_digits_nonpos by lia. simpl. lia.
Qed.

(** Once the width exists the encoder returns, and each row holds the
    digits of its value followed by UNSET cells. *)
Lemma binary_grid_run (traj : list Z) (max_bits : nat) :
  py_max (bit_length <$> filter (λ v, 0 < v) traj) = Some max_bits →
  ∃ g, binary_grid traj = Some g ∧ grid_wf g
       ∧ shape0 g = length traj ∧ shape1 g = max_bits
       ∧ ∀ i v j, traj !! i = Some v → (j < max_bits)%nat →
                  getitem g i j =
                  if decide (j < length (msb_digits v))%nat
                  then msb_digits v !! j else Some EMPTY.
Proof.
  intros Hmax. unfold binary_grid. rewrite Hmax. cbn [mbind option_bind].
  destruct (encode_rows_spec traj 0 (np_full (length traj) max_bits EMPTY))
    as (g & Hrun & Hwf & H0 & H1 & Hget).
  - apply np_full_wf.
  - simpl. lia.
  - simpl. by apply digits_fit.
  - exists g. split_and!; [done..|].
    intros i v j Hv Hj. rewrite Hget.
    rewrite decide_True by lia. rewrite Nat.sub_0_r, Hv.
    case_decide; [done|]. apply getitem_np_full; [|done].
    by apply lookup_lt_Some in Hv.
Qed.

Lemma binary_grid_spec (traj : list Z) (g : ndarray) :
  binary_grid traj = Some g →
  grid_wf g ∧ shape0 g = length traj
  ∧ py_max (bit_length <$> filter (λ v, 0 < v) traj) = Some (shape1 g)
  ∧ ∀ i v j, traj !! i = Some v → (j < shape1 g)%nat →
             getitem g i j =
             if decide (j < length (msb_digits v))%nat
             then msb_digits v !! j else Some EMPTY.
Proof.
  intros Hg.
  destruct (py_max (bit_length <$> filter (λ v, 0 < v) traj)) as [m|] eqn:Hmax.
  - destruct (binary_grid_run traj m Hmax) as (g' & Hg' & Hwf & H0 & H1 & Hget).
    rewrite Hg in Hg'. injection Hg' as <-. rewrite H1. done.
  - unfold binary_grid in Hg. by rewrite Hmax in Hg.
Qed.

(** The encoder returns on every trajectory with a positive value. *)
Lemma binary_grid_total (traj : list Z) :
  (∃ v, v ∈ traj ∧ 0 < v) → is_Some (binary_grid traj).
Proof.
  intros (v & Hv & Hpos).
  destruct (py_max (bit_length <$> filter (λ v, 0 < v) traj)) as [m|] eqn:Hmax.
  - destruct (binary_grid_run traj m Hmax) as (g & -> & _). done.
  - apply py_max_None, fmap_nil_inv in Hmax.
    assert (v ∈ filter (λ v, 0 < v) traj) as Hin by by apply list_elem_of_filter.
    rewrite Hmax in Hin. by apply elem_of_nil in Hin.
Qed.

(** Reading back columns that hold a digit string gives its value. *)
Lemma read_columns_digits (g : ndarray) (i : nat) (digits : list Z) (j : nat) (acc : Z) :
  Forall (λ d, d = 0 ∨ d = 1) digits →
  (∀ t, (t < length digits)%nat → getitem g i (j + t) = digits !! t) →
  read_columns g i j (length digits) acc = Some (msb_value acc digits).
Proof.
  revert j acc. induction digits as [|d digits IH]; intros j acc Hbin Hget; [done|].
  apply Forall_cons in Hbin as [Hd Hbin]. cbn [length read_columns].
  pose proof (Hget 0%nat ltac:(simpl; lia)) as H0. rewrite Nat.add_0_r in H0.
  rewrite H0. simpl.
  assert (cell_bit d = Some d) as -> by (by destruct Hd as [->| ->]).
  simpl. apply IH; [done|]. intros t Ht.
  replace (S j + t)%nat with (j + S t)%nat by lia. apply Hget. simpl. lia.
Qed.

(** The row of the grid that encodes [v], as a list. *)
Lemma binary_grid_row (traj : list Z) (g : ndarray) (i : nat) (v : Z) :
  binary_grid traj = Some g → traj !! i = Some v →
  data g !! i
  = Some (msb_digits v ++ replicate (shape1 g - length (msb_digits v)) EMPTY).
Proof.
  intros Hg Hv. pose proof (digits_fit traj (shape1 g)) as Hfit.
  apply binary_grid_spec in Hg as (Hwf & H0 & Hmax & Hget).
  specialize (Hfit Hmax). rewrite Forall_forall in Hfit.
  specialize (Hfit v (list_elem_of_lookup_2 _ _ _ Hv)).
  destruct (lookup_lt_is_Some_2 (data g) i) as [row Hrow].
  { destruct Hwf as [-> _]. rewrite H0. by apply lookup_lt_Some in Hv. }
  rewrite Hrow. f_equal. apply list_eq. intros j.
  assert (length row = shape1 g) as Hlen.
  { destruct Hwf as [_ Hcols]. rewrite Forall_lookup in Hcols. by eapply Hcols. }
  destruct (decide (j < shape1 g)%nat) as [Hj|Hj].
  - rewrite <- (getitem_row g i j row Hwf Hrow Hj), (Hget i v j Hv Hj).
    case_decide.
    + by rewrite lookup_app_l.
    + rewrite lookup_app_r by lia. symmetry. apply lookup_replicate_2. lia.
  - rewrite !lookup_ge_None_2; [done | | lia].
    rewrite length_app, length_replicate. lia.
Qed.

Lemma count_set_digits (digits : list Z) (n : nat) :
  Forall (λ d, d = 0 ∨ d = 1) digits →
  count_set (digits ++ replicate n EMPTY) = length digits.
Proof.
  intros Hbin. unfold count_set. rewrite filter_app, length_app.
  assert (filter (λ c, c ≠ EMPTY) (replicate n EMPTY) = []) as ->.
  { induction n as [|n IH]; [done|]. simpl. by rewrite filter_cons_False by auto. }
  simpl. rewrite Nat.add_0_r. f_equal.
  induction Hbin as [|d digits Hd _ IH]; [done|].
  rewrite filter_cons_True; [by rewrite IH|].
  unfold EMPTY. lia.
Qed.

End BinaryGrid.

(** * Bit-grid encoder: the claims *)

(** C1. For every trajectory of positive integers and every row index [i]
    of the grid that [binary_grid] produces, the integer read from the
    first [bitlen(traj[i])] columns of row [i], ONE as 1 and ZERO as 0,
    most significant bit first, is [traj[i]]. *)
Theorem encode_roundtrip (traj : list Z) (grid : ndarray) :
  Forall (λ v, 0 < v) traj → binary_grid traj = Some grid →
  ∀ i, (i < shape0 grid)%nat →
       ∃ v, traj !! i = Some v ∧ decode_row grid i (bit_length v) = Some v.
Proof.
  intros Hpos Hg i Hi. pose proof (digits_fit traj (shape1 grid)) as Hfit.
  apply binary_grid_spec in Hg as (Hwf & H0 & Hmax & Hget).
  specialize (Hfit Hmax). rewrite Forall_forall in Hfit, Hpos.
  destruct (lookup_lt_is_Some_2 traj i ltac:(lia)) as [v Hv].
  pose proof (list_elem_of_lookup_2 _ _ _ Hv) as Hin.
  exists v. split; [done|]. unfold decode_row.
  rewrite <- (msb_digits_length v (Hpos v Hin)).
  rewrite read_columns_digits.
  - by rewrite msb_digits_value by auto.
  - apply msb_digits_binary.
  - intros t Ht. simpl. rewrite (Hget i v t Hv) by (specialize (Hfit v Hin); lia).
    by rewrite decide_True.
Qed.

Lemma encode_roundtrip_witness :
  Forall (λ v, 0 < v) [6; 3; 1]
  ∧ binary_grid [6; 3; 1] = Some (mk_ndarray 3 3 [[1; 1; 0]; [1; 1; -1]; [1; -1; -1]])
  ∧ ∀ i, (i < 3)%nat →
         ∃ v, [6; 3; 1] !! i = Some v
              ∧ decode_row (mk_ndarray 3 3 [[1; 1; 0]; [1; 1; -1]; [1; -1; -1]])
                           i (bit_length v) = Some v.
Proof.
  assert (Forall (λ v, 0 < v) [6; 3; 1]) as Hpos by (repeat constructor).
  assert (binary_grid [6; 3; 1]
          = Some (mk_ndarray 3 3 [[1; 1; 0]; [1; 1; -1]; [1; -1; -1]])) as Hg
    by (vm_compute; reflexivity).
  split_and!; [exact Hpos | exact Hg | exact (encode_roundtrip _ _ Hpos Hg)].
Defined.

(** C4. For every trajectory of positive integers, the grid that
    [binary_grid] produces is as wide as the largest bit length of a
    trajectory value above 0 and as high as the trajectory is long; row [i]
    holds a digit in each of the columns [0 .. bitlen(traj[i]) - 1] and
    UNSET in every column from [bitlen(traj[i])] to the last, so exactly
    [bitlen(traj[i])] of its cells are not UNSET. *)
Theorem encode_shape (traj : list Z) (grid : ndarray) :
  Forall (λ v, 0 < v) traj → binary_grid traj = Some grid →
  (∃ v, v ∈ traj ∧ 0 < v ∧ bit_length v = shape1 grid)
  ∧ (∀ v, v ∈ traj → 0 < v → (bit_length v ≤ shape1 grid)%nat)
  ∧ shape0 grid = length traj
  ∧ ∀ i v, traj !! i = Some v →
      (∀ j, (j < bit_length v)%nat → ∃ c, getitem grid i j = Some c ∧ c ≠ EMPTY)
      ∧ (∀ j, (bit_length v ≤ j < shape1 grid)%nat → getitem grid i j = Some EMPTY)
      ∧ ∃ row, data grid !! i = Some row ∧ length row = shape1 grid
               ∧ count_set row = bit_length v.
Proof.
  intros Hpos Hg. pose proof (binary_grid_row traj grid) as Hrow.
  specialize (Hrow) with (1 := Hg).
  apply binary_grid_spec in Hg as (Hwf & H0 & Hmax & Hget).
  pose proof (py_max_spec _ _ Hmax) as [Hin Hbound].
  rewrite Forall_forall in Hpos.
  assert (∀ v, v ∈ traj → 0 < v → (bit_length v ≤ shape1 grid)%nat) as Hle.
  { intros v Hv Hv0. apply Hbound, list_elem_of_fmap_2. by apply list_elem_of_filter. }
  split_and!; [|done|done|].
  - apply list_elem_of_fmap in Hin as (v & Hv & [Hv0 Hvin]%list_elem_of_filter).
    exists v. done.
  - intros i v Hv. pose proof (list_elem_of_lookup_2 _ _ _ Hv) as Hvin.
    pose proof (msb_digits_length v (Hpos v Hvin)) as Hlen.
    specialize (Hle v Hvin (Hpos v Hvin)). split_and!.
    + intros j Hj. rewrite (Hget i v j Hv) by lia.
      rewrite decide_True by lia.
      destruct (lookup_lt_is_Some_2 (msb_digits v) j ltac:(lia)) as [d Hd].
      exists d. split; [done|].
      pose proof (msb_digits_binary v) as Hbin. rewrite Forall_lookup in Hbin.
      specialize (Hbin j d Hd). unfold EMPTY. lia.
    + intros j Hj. rewrite (Hget i v j Hv) by lia. by rewrite decide_False by lia.
    + eexists. split; [by apply Hrow|]. split.
      * rewrite length_app, length_replicate. lia.
      * rewrite count_set_digits by apply msb_digits_binary. done.
Qed.

Lemma encode_shape_witness :
  Forall (λ v, 0 < v) [10; 5; 16]
  ∧ binary_grid [10; 5; 16]
    = Some (mk_ndarray 3 5 [[1; 0; 1; 0; -1]; [1; 0; 1; -1; -1]; [1; 0; 0; 0; 0]])
  ∧ ∃ row, data (mk_ndarray 3 5 [[1; 0; 1; 0; -1]; [1; 0; 1; -1; -1]; [1; 0; 0; 0; 0]])
             !! 1%nat = Some row
           ∧ length row = 5%nat ∧ count_set row = bit_length 5.
Proof.
  assert (Forall (λ v, 0 < v) [10; 5; 16]) as Hpos by (repeat constructor).
  assert (binary_grid [10; 5; 16]
          = Some (mk_ndarray 3 5 [[1; 0; 1; 0; -1]; [1; 0; 1; -1; -1]; [1; 0; 0; 0; 0]]))
    as Hg by (vm_compute; reflexivity).
  split_and!; [exact Hpos | exact Hg |].
  destruct (encode_shape _ _ Hpos Hg) as (_ & _ & _ & Hrows).
  destruct (Hrows 1%nat 5 eq_refl) as (_ & _ & Hrow). exact Hrow.
Defined.

(** * Frame compositor: properties *)

Section Painting.

Lemma getitem_in_range (g : ndarray) (i j : nat) :
  grid_wf g → (i < shape0 g)%nat → (j < shape1 g)%nat → is_Some (getitem g i j).
Proof.
  intros Hwf Hi Hj.
  destruct (lookup_lt_is_Some_2 (data g) i) as [row Hrow].
  { destruct Hwf as [-> _]. done. }
  rewrite (getitem_row g i j row Hwf Hrow Hj). apply lookup_lt_is_Some_2.
  destruct Hwf as [_ Hcols]. rewrite Forall_lookup in Hcols.
  by rewrite (Hcols i row Hrow).
Qed.

(** Painting a cell inside the grid does not raise. *)
Lemma paint_cell_total (g : ndarray) (cell gap : Z) (px : nat → Z) (py : Z)
    (row : nat) (one zero : color) (j : nat) (canvas : Canvas) :
  grid_wf g → (row < shape0 g)%nat → (j < shape1 g)%nat →
  is_Some (paint_cell g cell gap px py row one zero j canvas).
Proof.
  intros Hwf Hrow Hj. unfold paint_cell.
  destruct (getitem_in_range g row j Hwf Hrow Hj) as [v ->]. simpl.
  by destruct (v =? EMPTY).
Qed.

(** Painting a row of the grid, column by column, does not raise. *)
Lemma paint_row_total (g : ndarray) (cell gap : Z) (px : nat → Z) (py : Z)
    (row : nat) (one zero : color) (canvas : Canvas) :
  grid_wf g → (row < shape0 g)%nat →
  is_Some (for_each (paint_cell g cell gap px py row one zero)
                    (seq 0 (shape1 g)) canvas).
Proof.
  intros Hwf Hrow.
  destruct (for_each_seq_inv (λ _ _, True)
              (paint_cell g cell gap px py row one zero)
              0 (shape1 g) canvas I) as (c & -> & _); [|done].
  intros k c Hk _.
  destruct (paint_cell_total g cell gap px py row one zero k c Hwf Hrow)
    as [c' ->]; [lia|]. by exists c'.
Qed.

(** [traj_row] on a row the grid does not have returns at once: the canvas
    is as it was. *)
Lemma traj_row_skip (grids : list ndarray) (col_offsets : list Z)
    (margin cell gap : Z) (idx row : nat) (highlight : bool) (canvas : Canvas)
    (g : ndarray) :
  grids !! idx = Some g → (shape0 g ≤ row)%nat →
  traj_row grids col_offsets margin cell gap idx row highlight canvas = Some canvas.
Proof.
  intros Hg Hrow. unfold traj_row. rewrite Hg. simpl. by rewrite decide_True.
Qed.

(** [traj_row] never raises on a trajectory of the scene, whatever the row. *)
Lemma traj_row_total (grids : list ndarray) (col_offsets : list Z)
    (margin cell gap : Z) (idx row : nat) (highlight : bool) (canvas : Canvas) :
  Forall grid_wf grids → length col_offsets = length grids →
  (idx < length grids)%nat →
  is_Some (traj_row grids col_offsets margin cell gap idx row highlight canvas).
Proof.
  intros Hwf Hoff Hidx. unfold traj_row.
  destruct (lookup_lt_is_Some_2 grids idx Hidx) as [g Hg]. rewrite Hg.
  cbn [mbind option_bind]. case_decide; [done|].
  destruct (lookup_lt_is_Some_2 PAL_MULTI (idx mod length PAL_MULTI)) as [pal ->].
  { apply Nat.mod_upper_bound. done. }
  cbn [mbind option_bind].
  destruct (lookup_lt_is_Some_2 col_offsets idx ltac:(lia)) as [co ->].
  cbn [mbind option_bind].
  apply paint_row_total; [|lia].
  rewrite Forall_lookup in Hwf. by eapply Hwf.
Qed.

Lemma layout_length (gap_cols : Z) (grids : list ndarray) :
  length (layout gap_cols grids).1 = length grids.
Proof.
  unfold layout.
  enough (∀ acc : list Z * Z,
            length (foldl (λ '(col_offsets, off) g,
                             (col_offsets ++ [off],
                              off + (Z.of_nat (shape1 g) + gap_cols))) acc grids).1
            = (length acc.1 + length grids)%nat) as H by apply H.
  induction grids as [|g grids IH]; intros [offs off]; simpl; [lia|].
  rewrite IH. simpl. rewrite length_app. simpl. lia.
Qed.

End Painting.

Section ParallelScene.

Variable accelerated : bool.

(** Every start value has a trajectory, so the comprehension returns. *)
Lemma trajectories_total (numbers : list Z) :
  ∃ trajs, mapM (λ n, trajectory n accelerated) numbers = Some trajs
           ∧ Forall2 (λ n t, trajectory n accelerated = Some t) numbers trajs.
Proof.
  destruct (mapM_is_Some_2 (λ n, trajectory n accelerated) numbers) as [trajs H].
  - apply Forall_forall. intros n _. simpl.
    destruct (trajectory_spec accelerated n) as (t & -> & _). done.
  - exists trajs. split; [done|]. by apply mapM_Some.
Qed.

(** The trajectories of start values from 1 on all have a grid, of their
    own height. *)
Lemma grids_total (numbers : list Z) (trajs : list (list Z)) :
  Forall (λ n, 1 ≤ n) numbers →
  Forall2 (λ n t, trajectory n accelerated = Some t) numbers trajs →
  ∃ grids, mapM binary_grid trajs = Some grids
           ∧ Forall grid_wf grids
           ∧ length grids = length numbers
           ∧ shape0 <$> grids = length <$> trajs.
Proof.
  intros Hpos Htrajs.
  assert (Forall (λ t, ∃ v, v ∈ t ∧ 0 < v) trajs) as Hhas.
  { induction Htrajs as [|n t numbers trajs Ht _ IH]; [constructor|].
    apply Forall_cons in Hpos as [Hn Hpos]. constructor; [|by apply IH].
    destruct (trajectory_spec accelerated n) as (t' & Ht' & [ext ->] & _).
    rewrite Ht in Ht'. injection Ht' as ->.
    exists n. split; [by left | lia]. }
  destruct (mapM_is_Some_2 binary_grid trajs) as [grids Hgrids].
  { eapply Forall_impl; [exact Hhas|]. intros t Ht. simpl. by apply binary_grid_total. }
  exists grids. split; [done|].
  apply mapM_Some in Hgrids.
  rewrite (Forall2_length _ _ _ Htrajs).
  clear Htrajs Hhas Hpos.
  induction Hgrids as [|t g trajs grids Hg _ IH]; [done|].
  destruct IH as (Hwf & Hlen & Hshape).
  apply binary_grid_spec in Hg as (Hwfg & H0 & _).
  split_and!; [by constructor | simpl; lia | by rewrite !fmap_cons, H0, Hshape].
Qed.

(** Grids that the comprehension produced agree with their shapes and are
    as high as their trajectories are long. *)
Lemma grids_of_trajs (trajs : list (list Z)) (grids : list ndarray) :
  mapM binary_grid trajs = Some grids →
  Forall grid_wf grids ∧ shape0 <$> grids = length <$> trajs.
Proof.
  intros Hgrids. apply mapM_Some in Hgrids.
  induction Hgrids as [|t g trajs grids Hg _ [Hwf Hshape]]; [done|].
  apply binary_grid_spec in Hg as (Hwfg & H0 & _).
  split; [by constructor | by rewrite !fmap_cons, H0, Hshape].
Qed.

(** The frame loop of [parallel_gif] appends one frame per time step and
    raises at none. *)
Lemma parallel_loop_count (grids : list ndarray) (col_offsets : list Z)
    (margin cell gap : Z) (max_rows : nat) (canvas : Canvas) :
  Forall grid_wf grids → length col_offsets = length grids →
  ∃ canvas' frames,
    parallel_loop grids col_offsets margin cell gap max_rows canvas
    = Some (canvas', frames)
    ∧ length frames = max_rows.
Proof.
  intros Hwf Hoff. unfold parallel_loop.
  match goal with
  | |- context [for_each ?body (seq 0 max_rows) ?init] =>
      destruct (for_each_seq_inv (λ k st, length st.2 = k) body 0 max_rows init)
        as ([canvas' frames] & Hrun & Hlen)
  end.
  - done.
  - intros r [c fr] _ Hq. simpl in Hq.
    match goal with
    | |- context [for_each ?body (seq 0 (length grids)) c] =>
        destruct (for_each_seq_inv (λ _ _, True) body 0 (length grids) c I)
          as (c' & -> & _)
    end.
    + intros idx c0 Hidx _.
      pose proof (λ row hl c, traj_row_total grids col_offsets margin cell gap
                                idx row hl c Hwf Hoff ltac:(lia)) as Htotal.
      case_decide.
      * destruct (Htotal (r - 1)%nat false c0) as [c1 ->]. cbn [mbind option_bind].
        destruct (Htotal r true c1) as [c2 ->]. by exists c2.
      * cbn [mbind option_bind].
        destruct (Htotal r true c0) as [c2 ->]. by exists c2.
    + cbn [mbind option_bind]. eexists. split; [done|].
      simpl. rewrite length_app. simpl. lia.
  - exists canvas', frames. done.
Qed.

(** The closing loop, which settles the last row of every trajectory. *)
Lemma settle_all_total (grids : list ndarray) (col_offsets : list Z)
    (margin cell gap : Z) (canvas : Canvas) :
  Forall grid_wf grids → length col_offsets = length grids →
  is_Some (for_each (λ idx canvas,
                       g ← grids !! idx;
                       traj_row grids col_offsets margin cell gap
                                idx (shape0 g - 1)%nat false canvas)
                    (seq 0 (length grids)) canvas).
Proof.
  intros Hwf Hoff.
  match goal with
  | |- context [for_each ?body (seq 0 (length grids)) canvas] =>
      destruct (for_each_seq_inv (λ _ _, True) body 0 (length grids) canvas I)
        as (c' & -> & _)
  end; [|done].
  intros idx c Hidx _.
  destruct (lookup_lt_is_Some_2 grids idx ltac:(lia)) as [g ->].
  cbn [mbind option_bind].
  destruct (traj_row_total grids col_offsets margin cell gap idx
              (shape0 g - 1)%nat false c Hwf Hoff ltac:(lia)) as [c' ->].
  by exists c'.
Qed.

End ParallelScene.

(** * Frame compositor: the claims *)

(** C5. For every [n ≥ 1] the frame sequence that [spacetime_gif] builds has
    [height + 30] frames, where [height] is the number of grid rows, which
    is the length of the trajectory; [height] is also what it returns. *)
Theorem spacetime_frame_count (n : Z) (accelerated : bool) (target_h : Z) :
  1 ≤ n →
  ∃ traj grid frames,
    trajectory n accelerated = Some traj ∧ binary_grid traj = Some grid
    ∧ shape0 grid = length traj
    ∧ spacetime_gif n accelerated target_h = Some (frames, shape0 grid)
    ∧ length frames = (shape0 grid + 30)%nat.
Proof.
  intros Hn.
  destruct (trajectory_spec accelerated n) as (traj & Htraj & [ext ->] & _ & _).
  destruct (binary_grid_total (n :: ext)) as [grid Hgrid].
  { exists n. split; [by left | lia]. }
  pose proof (binary_grid_spec _ _ Hgrid) as (Hwf & H0 & _ & _).
  exists (n :: ext), grid. unfold spacetime_gif.
  rewrite Htraj. cbn [mbind option_bind]. rewrite Hgrid. cbn [mbind option_bind].
  unfold floordiv. destruct (Z.eqb_spec (Z.of_nat (shape0 grid)) 0) as [E|_].
  { rewrite H0 in E. simpl in E. lia. }
  cbn [mbind option_bind]. unfold PAL_DEFAULT. cbv zeta.
  assert (∀ m cell gap r one zero c, (r < shape0 grid)%nat →
            is_Some (row_draw grid (shape1 grid) m cell gap r one zero c)) as Hdraw.
  { intros. unfold row_draw. by apply paint_row_total. }
  match goal with
  | |- context [for_each ?body (seq 0 ?len) ?init] =>
      destruct (for_each_seq_inv (λ k st, length st.2 = k) body 0 len init)
        as ([canvas frames] & Hrun & Hlen)
  end.
  - done.
  - intros k [c fr] Hk Hq. simpl in Hq.
    match goal with
    | |- context [row_draw _ _ ?m ?cell ?gap k ?one ?zero] =>
        pose proof (λ c, Hdraw m cell gap k one zero c ltac:(lia)) as Hhi
    end.
    case_decide.
    + match goal with
      | |- context [row_draw _ _ ?m ?cell ?gap (k - 1)%nat ?one ?zero c] =>
          destruct (Hdraw m cell gap (k - 1)%nat one zero c ltac:(lia)) as [c1 ->]
      end.
      cbn [mbind option_bind]. destruct (Hhi c1) as [c2 ->]. cbn [mbind option_bind].
      eexists. split; [done|]. simpl. rewrite length_app. simpl. lia.
    + cbn [mbind option_bind]. destruct (Hhi c) as [c2 ->]. cbn [mbind option_bind].
      eexists. split; [done|]. simpl. rewrite length_app. simpl. lia.
  - rewrite Hrun. cbn [mbind option_bind].
    match goal with
    | |- context [row_draw _ _ ?m ?cell ?gap (shape0 grid - 1)%nat ?one ?zero canvas] =>
        destruct (Hdraw m cell gap (shape0 grid - 1)%nat one zero canvas) as [c ->]
    end.
    { rewrite H0. simpl. lia. }
    cbn [mbind option_bind]. eexists. split_and!; [done..|].
    rewrite length_app, length_replicate. simpl in Hlen. unfold HOLD. lia.
Qed.

Lemma spacetime_frame_count_witness :
  1 ≤ 27 ∧
  ∃ traj grid frames,
    trajectory 27 false = Some traj ∧ binary_grid traj = Some grid
    ∧ shape0 grid = length traj
    ∧ spacetime_gif 27 false 850 = Some (frames, shape0 grid)
    ∧ length frames = (shape0 grid + 30)%nat.
Proof. split; [lia | apply spacetime_frame_count; lia]. Defined.

(** The scenario of the design: 112 rows give 142 frames. *)
Example spacetime_27_frames :
  (p ← spacetime_gif 27 false 850; Some (length p.1, p.2))
  = Some (142%nat, 112%nat).
Proof. vm_compute. reflexivity. Qed.

(** C8. In [parallel_gif], [traj_row] on a row index that the grid of the
    trajectory does not reach paints nothing and raises nothing.  With a
    cell of at least one pixel and a column gap that is not negative (the
    drawing library refuses an empty rectangle and a negative image size),
    for every list of start values, once the grids exist the frame loop
    runs [max_rows] times, one frame each and without raising, where
    [max_rows] is the largest height among the trajectories.  For a
    non-empty list of start values from 1 on the whole builder raises
    nothing and hands over these frames and the 30 held ones. *)
Theorem parallel_skips_and_runs :
  (∀ grids col_offsets margin cell gap idx row highlight canvas g,
     grids !! idx = Some g → (shape0 g ≤ row)%nat →
     traj_row grids col_offsets margin cell gap idx row highlight canvas
     = Some canvas)
  ∧ (∀ numbers accelerated cell gap_cols trajs grids max_rows canvas,
       1 ≤ cell → 0 ≤ gap_cols →
       mapM (λ n, trajectory n accelerated) numbers = Some trajs →
       mapM binary_grid trajs = Some grids →
       py_max (shape0 <$> grids) = Some max_rows →
       max_rows ∈ (length <$> trajs)
       ∧ (∀ t, t ∈ trajs → (length t ≤ max_rows)%nat)
       ∧ ∃ canvas' loop_frames,
           parallel_loop grids (layout gap_cols grids).1 10 cell
                         (if 8 <=? cell then 1 else 0) max_rows canvas
           = Some (canvas', loop_frames)
           ∧ length loop_frames = max_rows)
  ∧ (∀ numbers accelerated cell gap_cols,
       1 ≤ cell → 0 ≤ gap_cols →
       numbers ≠ [] → Forall (λ n, 1 ≤ n) numbers →
       ∃ trajs grids max_rows frames,
         mapM (λ n, trajectory n accelerated) numbers = Some trajs
         ∧ mapM binary_grid trajs = Some grids
         ∧ py_max (shape0 <$> grids) = Some max_rows
         ∧ parallel_gif numbers accelerated cell gap_cols = Some frames
         ∧ length frames = (max_rows + 30)%nat).
Proof.
  split_and!.
  - intros. by eapply traj_row_skip.
  - intros numbers accelerated cell gap_cols trajs grids max_rows canvas
           _ _ _ Hgrids Hmax.
    destruct (grids_of_trajs _ _ Hgrids) as [Hwf Hshape].
    pose proof (py_max_spec _ _ Hmax) as [Hin Hbound]. rewrite Hshape in Hin, Hbound.
    split_and!; [done | |].
    + intros t Ht. apply Hbound. by apply list_elem_of_fmap_2.
    + apply parallel_loop_count; [done | apply layout_length].
  - intros numbers accelerated cell gap_cols _ _ Hne Hpos.
    destruct (trajectories_total accelerated numbers) as (trajs & Htrajs & HF2).
    destruct (grids_total accelerated numbers trajs Hpos HF2)
      as (grids & Hgrids & Hwf & Hlen & Hshape).
    destruct (py_max (shape0 <$> grids)) as [max_rows|] eqn:Hmax; cycle 1.
    { apply py_max_None, fmap_nil_inv in Hmax. subst grids.
      destruct numbers; [done | simpl in Hlen; lia]. }
    exists trajs, grids, max_rows.
    pose proof (layout_length gap_cols grids) as Hoff.
    unfold parallel_gif. rewrite Htrajs. cbn [mbind option_bind].
    rewrite Hgrids. cbn [mbind option_bind]. rewrite Hmax. cbn [mbind option_bind].
    destruct (layout gap_cols grids) as [col_offsets off] eqn:Hlay.
    simpl in Hoff. cbv zeta.
    match goal with
    | |- context [parallel_loop _ ?offs ?m ?c ?gap _ ?c0] =>
        destruct (parallel_loop_count grids offs m c gap max_rows c0 Hwf Hoff)
          as (canvas' & loop_frames & Hrun & Hcount)
    end.
    rewrite Hrun. cbn [mbind option_bind].
    destruct (settle_all_total grids col_offsets 10 cell (if 8 <=? cell then 1 else 0)
                canvas' Hwf Hoff) as [final Hfinal].
    rewrite Hfinal. cbn [mbind option_bind].
    eexists. split_and!; [done..|].
    rewrite length_app, length_replicate. unfold HOLD. lia.
Qed.

Lemma parallel_skips_and_runs_witness :
  ([np_full 2 3 1] !! 0%nat = Some (np_full 2 3 1) ∧ (2 ≤ 5)%nat
   ∧ traj_row [np_full 2 3 1] [0] 10 12 1 0 5 true (Image_new 56 44 BG)
     = Some (Image_new 56 44 BG))
  ∧ 1 ≤ 12 ∧ 0 ≤ 2
  ∧ [7; 27; 97] ≠ [] ∧ Forall (λ n, 1 ≤ n) [7; 27; 97]
  ∧ ∃ trajs grids max_rows frames,
      mapM (λ n, trajectory n true) [7; 27; 97] = Some trajs
      ∧ mapM binary_grid trajs = Some grids
      ∧ py_max (shape0 <$> grids) = Some max_rows
      ∧ parallel_gif [7; 27; 97] true 12 2 = Some frames
      ∧ length frames = (max_rows + 30)%nat.
Proof.
  assert ([7; 27; 97] ≠ []) as Hne by discriminate.
  assert (Forall (λ n, 1 ≤ n) [7; 27; 97]) as Hpos by (repeat constructor; lia).
  assert (1 ≤ 12) as Hcell by lia.
  assert (0 ≤ 2) as Hgap by lia.
  split_and!; [reflexivity | simpl; lia | | exact Hcell | exact Hgap
               | exact Hne | exact Hpos |].
  - apply (proj1 parallel_skips_and_runs) with (g := np_full 2 3 1);
      [reflexivity | simpl; lia].
  - exact (proj2 (proj2 parallel_skips_and_runs) [7; 27; 97] true 12 2
                 Hcell Hgap Hne Hpos).
Defined.

(** The full run of the scene builder on [[7; 27; 97]]: 44 time steps. *)
Example parallel_7_27_97_frames :
  length <$> parallel_gif [7; 27; 97] true 12 2 = Some 74%nat.
Proof. vm_compute. reflexivity. Qed.

(** * Further properties of the sequence engine *)

Section EngineMore.

(** What the halving loop strips is a power of two. *)
Lemma halve_loop_factor (fuel : nat) (n r : Z) :
  0 < n → halve_loop fuel n = Some r → ∃ k, 0 ≤ k ∧ n = r * 2 ^ k.
Proof.
  revert n. induction fuel as [|fuel IH]; intros n Hn H; [done|].
  simpl in H. destruct (Z.eqb_spec (n mod 2) 0) as [E|E].
  - assert (0 < n / 2) as Hpos by (Z.div_mod_to_equations; lia).
    destruct (IH _ Hpos H) as (k & Hk & Hfac).
    exists (Z.succ k). split; [lia|].
    rewrite Z.pow_succ_r by done.
    pose proof (Z.div_mod n 2 ltac:(lia)) as Hdm. rewrite E in Hdm. lia.
  - injection H as <-. exists 0. split; [done | lia].
Qed.

(** An odd positive number that divides a power of two is 1. *)
Lemma odd_factor_of_pow2 (r j k : Z) :
  0 ≤ j → 0 ≤ k → r mod 2 = 1 → r * 2 ^ j = 2 ^ k → r = 1.
Proof.
  intros Hj Hk Hodd Heq.
  assert (0 < 2 ^ j) as Hpj by (apply Z.pow_pos_nonneg; lia).
  assert (0 < 2 ^ k) as Hpk by (apply Z.pow_pos_nonneg; lia).
  destruct (Z.le_gt_cases k j) as [Hle|Hgt].
  - replace j with ((j - k) + k) in Heq by lia.
    rewrite Z.pow_add_r in Heq by lia.
    assert (0 < 2 ^ (j - k)) as Hpd by (apply Z.pow_pos_nonneg; lia).
    assert (r * 2 ^ (j - k) = 1) as H1 by nia.
    nia.
  - exfalso. replace k with (Z.succ (k - j - 1) + j) in Heq by lia.
    rewrite Z.pow_add_r, Z.pow_succ_r in Heq by lia.
    assert (r = 2 * 2 ^ (k - j - 1)) as Hr by nia.
    rewrite Hr, Z.mul_comm, Z.mod_mul in Hodd by lia. done.
Qed.

(** The loop runs at least once from a start value above 1. *)
Lemma trajectory_two_elements (accelerated : bool) (n : Z) (ext : list Z) :
  2 ≤ n → trajectory n accelerated = Some (n :: ext) → ext ≠ [].
Proof.
  intros Hn Hrun ->.
  destruct (trajectory_spec accelerated n) as (out & Hout & _ & _ & Hinv).
  rewrite Hrun in Hout. injection Hout as <-.
  destruct (Hinv ltac:(lia)) as [_ [Hlast|Hfull]].
  - simpl in Hlast. injection Hlast as ->. lia.
  - unfold CAP in Hfull. simpl in Hfull. lia.
Qed.

End EngineMore.

(** X1. For every integer [n] and either rule, [trajectory] returns a
    sequence that starts with [n] and has between 1 and 50,001 elements; it
    has at least two exactly when [n ≥ 2]. *)
Theorem trajectory_length_bounds (n : Z) (accelerated : bool) :
  ∃ path, trajectory n accelerated = Some path
          ∧ head path = Some n
          ∧ (1 ≤ length path)%nat ∧ Z.of_nat (length path) ≤ 50001
          ∧ (2 ≤ n ↔ (2 ≤ length path)%nat).
Proof.
  destruct (trajectory_spec accelerated n) as (out & Hout & [ext ->] & Hone & Hinv).
  exists (n :: ext). split_and!; [done | done | simpl; lia | |].
  - destruct (Z.le_gt_cases n 1) as [Hle|Hgt].
    + rewrite (Hone Hle). simpl. lia.
    + destruct (Hinv ltac:(lia)) as [[_ _ _ Hcap] _]. unfold CAP in Hcap. done.
  - split.
    + intros Hn. pose proof (trajectory_two_elements _ _ _ Hn Hout) as Hext.
      destruct ext; [done | simpl; lia].
    + intros Hlen. destruct (Z.le_gt_cases n 1) as [Hle|Hgt]; [|lia].
      rewrite (Hone Hle) in Hlen. simpl in Hlen. lia.
Qed.

(** X2. For every [n ≥ 1] and either rule, no element of the trajectory
    before the last is 1, and the last element is 1 unless the trajectory
    has the full 50,001 elements. *)
Theorem trajectory_ends (n : Z) (accelerated : bool) :
  1 ≤ n →
  ∃ path, trajectory n accelerated = Some path
          ∧ (last path = Some 1 ∨ Z.of_nat (length path) = 50001)
          ∧ ∀ i a, path !! i = Some a → (S i < length path)%nat → a ≠ 1.
Proof.
  intros Hn.
  destruct (trajectory_spec accelerated n) as (out & Hout & _ & _ & Hinv).
  destruct (Hinv Hn) as [[_ _ Hone _] Hend].
  exists out. unfold CAP in Hend. done.
Qed.

Lemma trajectory_ends_witness :
  1 ≤ 97 ∧
  ∃ path, trajectory 97 true = Some path
          ∧ (last path = Some 1 ∨ Z.of_nat (length path) = 50001)
          ∧ ∀ i a, path !! i = Some a → (S i < length path)%nat → a ≠ 1.
Proof. split; [lia | apply trajectory_ends; lia]. Defined.

(** X3. For [n ≥ 2], [collatz_t3(n)] is the odd part of [3n + 1] when [n]
    is odd and of [n] when [n] is even: that number is the result times a
    power of two, and the result is odd. *)
Theorem collatz_t3_odd_part (n : Z) :
  2 ≤ n →
  ∃ r k, collatz_t3 n = Some r ∧ r mod 2 = 1 ∧ 0 ≤ k
         ∧ (if n mod 2 =? 1 then 3 * n + 1 else n) = r * 2 ^ k.
Proof.
  intros Hn. destruct (collatz_t3_total n) as [r Hr]. exists r.
  pose proof (collatz_t3_odd n r Hr) as [Hodd _].
  pose proof Hr as Hloop.
  unfold collatz_t3 in Hloop. destruct (Z.leb_spec n 1) as [|_]; [lia|].
  apply halve_loop_factor in Hloop as (k & Hk & Hfac);
    [|destruct (n mod 2 =? 1); lia].
  exists k. done.
Qed.

Lemma collatz_t3_odd_part_witness :
  2 ≤ 12 ∧
  ∃ r k, collatz_t3 12 = Some r ∧ r mod 2 = 1 ∧ 0 ≤ k
         ∧ (if 12 mod 2 =? 1 then 3 * 12 + 1 else 12) = r * 2 ^ k.
Proof. split; [lia | apply collatz_t3_odd_part; lia]. Defined.

(** X4. When the standard trajectory of [n ≥ 1] reaches 1, every element of
    the accelerated trajectory occurs in it, at an index that is not
    smaller than its own. *)
Theorem accelerated_inside_standard (n : Z) (std acc : list Z) :
  1 ≤ n → trajectory n false = Some std → last std = Some 1 →
  trajectory n true = Some acc →
  ∀ i a, acc !! i = Some a → ∃ m, (i ≤ m)%nat ∧ std !! m = Some a.
Proof.
  intros Hn Hstd Hlast Hacc i a Ha.
  destruct (trajectory_spec true n) as (acc' & Hacc' & [exta ->] & _ & Hinv_a).
  destruct (trajectory_spec false n) as (std' & Hstd' & [exts ->] & _ & Hinv_s).
  rewrite Hacc in Hacc'. injection Hacc' as ->.
  rewrite Hstd in Hstd'. injection Hstd' as ->.
  destruct (Hinv_a Hn) as [Hia _]. destruct (Hinv_s Hn) as [[_ Hsteps _ _] _].
  destruct (acc_path_iter _ n Hia eq_refl i a Ha) as (m & Hm & -> & Hbefore).
  exists m. split; [done|].
  rewrite last_lookup in Hlast.
  pose proof (std_path_iter _ n Hsteps eq_refl _ _ Hlast) as H1.
  destruct (decide (m < length (n :: exts))%nat) as [Hlt|Hge].
  - destruct (lookup_lt_is_Some_2 _ _ Hlt) as [b Hb]. rewrite Hb.
    by rewrite (std_path_iter _ n Hsteps eq_refl _ _ Hb).
  - exfalso. apply (Hbefore (pred (length (n :: exts)))); [simpl in *; lia | done].
Qed.

Lemma accelerated_inside_standard_witness :
  1 ≤ 6
  ∧ trajectory 6 false = Some [6; 3; 10; 5; 16; 8; 4; 2; 1]
  ∧ last [6; 3; 10; 5; 16; 8; 4; 2; 1] = Some 1
  ∧ trajectory 6 true = Some [6; 3; 5; 1]
  ∧ ∀ i a, [6; 3; 5; 1] !! i = Some a
           → ∃ m, (i ≤ m)%nat ∧ [6; 3; 10; 5; 16; 8; 4; 2; 1] !! m = Some a.
Proof.
  assert (trajectory 6 false = Some [6; 3; 10; 5; 16; 8; 4; 2; 1]) as Hs
    by (vm_compute; reflexivity).
  assert (trajectory 6 true = Some [6; 3; 5; 1]) as Ha by (vm_compute; reflexivity).
  split_and!; [lia | exact Hs | reflexivity | exact Ha |].
  exact (accelerated_inside_standard 6 _ _ ltac:(lia) Hs eq_refl Ha).
Defined.

Section EngineFamilies.

Lemma collatz_t3_pow2 (k : Z) : 1 ≤ k → collatz_t3 (2 ^ k) = Some 1.
Proof.
  intros Hk. destruct (collatz_t3_total (2 ^ k)) as [r Hr].
  pose proof (collatz_t3_odd _ r Hr) as [Hodd _]. rewrite Hr. f_equal.
  assert (2 ≤ 2 ^ k) as H2.
  { change 2 with (2 ^ 1) at 1. apply Z.pow_le_mono_r; lia. }
  assert (2 ^ k mod 2 = 0) as Heven.
  { replace k with (Z.succ (k - 1)) by lia. rewrite Z.pow_succ_r by lia.
    rewrite Z.mul_comm. apply Z.mod_mul. lia. }
  unfold collatz_t3 in Hr. destruct (Z.leb_spec (2 ^ k) 1) as [|_]; [lia|].
  rewrite Heven in Hr. change (0 =? 1) with false in Hr. cbv iota in Hr.
  apply halve_loop_factor in Hr as (j & Hj & Hfac); [|lia].
  apply (odd_factor_of_pow2 r j k); [done | lia | done | by symmetry].
Qed.

(** The accelerated trajectory is never the longer one (on any integer). *)
Lemma accelerated_length_le (n : Z) (acc std : list Z) :
  trajectory n true = Some acc → trajectory n false = Some std →
  (length acc ≤ length std)%nat.
Proof.
  intros Hacc Hstd.
  destruct (trajectory_spec true n) as (acc' & Hacc' & [exta ->] & Hone_a & Hinv_a).
  destruct (trajectory_spec false n) as (std' & Hstd' & [exts ->] & Hone_s & Hinv_s).
  rewrite Hacc in Hacc'. injection Hacc' as ->.
  rewrite Hstd in Hstd'. injection Hstd' as ->.
  destruct (Z.le_gt_cases n 1) as [Hle|Hgt].
  - by rewrite (Hone_a Hle), (Hone_s Hle).
  - destruct (Hinv_a ltac:(lia)) as [Ha _].
    destruct (Hinv_s ltac:(lia)) as [[_ Hsteps _ _] Hend].
    apply Nat.le_ngt. intros Hlonger.
    pose proof (inv_cap _ _ Ha) as Hcap.
    destruct Hend as [Hlast|Hfull]; [|lia].
    rewrite last_lookup in Hlast.
    apply (std_path_iter _ n Hsteps eq_refl) in Hlast.
    destruct (lookup_lt_is_Some_2 (n :: exta) (pred (length (n :: exta))))
      as [a Hlook]; [simpl; lia|].
    destruct (acc_path_iter _ n Ha eq_refl _ _ Hlook) as (m & Hm & _ & Hbefore).
    apply (Hbefore (pred (length (n :: exts)))); [simpl in *; lia | done].
Qed.

(** The comprehension of [stopping_times_plot], entry by entry. *)
Lemma stopping_times_entries (max_n : Z) (accelerated : bool) :
  ∃ times, stopping_times_plot max_n accelerated = Some (seqZ 2 (max_n - 1), times)
           ∧ Forall2 (λ n t, ∃ path, trajectory n accelerated = Some path
                                     ∧ t = Z.of_nat (length path) - 1)
                     (seqZ 2 (max_n - 1)) times.
Proof.
  unfold stopping_times_plot.
  set (f := λ n, t ← trajectory n accelerated; Some (Z.of_nat (length t) - 1)).
  destruct (mapM_is_Some_2 f (seqZ 2 (max_n - 1))) as [times Htimes].
  - apply Forall_forall. intros n _. unfold f. simpl.
    destruct (trajectory_spec accelerated n) as (t & -> & _). done.
  - exists times. cbv zeta. rewrite Htimes. split; [done|].
    apply mapM_Some in Htimes. eapply Forall2_impl; [exact Htimes|].
    intros n t Hf. unfold f in Hf.
    destruct (trajectory n accelerated) as [path|]; [|done].
    simpl in Hf. injection Hf as <-. by exists path.
Qed.

End EngineFamilies.

(** X5. For [0 ≤ k ≤ 50000], [trajectory(2^k, STANDARD)] is the [k + 1]
    powers of two from [2^k] down to 1. *)
Theorem trajectory_pow2_standard (k : Z) :
  0 ≤ k ≤ 50000 →
  ∃ path, trajectory (2 ^ k) false = Some path
          ∧ Z.of_nat (length path) = k + 1
          ∧ ∀ i, Z.of_nat i ≤ k → path !! i = Some (2 ^ (k - Z.of_nat i)).
Proof.
  intros Hk.
  assert (1 ≤ 2 ^ k) as Hpos by (pose proof (Z.pow_pos_nonneg 2 k); lia).
  destruct (trajectory_spec false (2 ^ k)) as (out & Hout & [ext ->] & _ & Hinv).
  destruct (Hinv Hpos) as [[_ Hsteps Hone Hcap] Hend].
  set (out := 2 ^ k :: ext) in *.
  assert (∀ i a, out !! i = Some a → Z.of_nat i ≤ k → a = 2 ^ (k - Z.of_nat i))
    as Helem.
  { intros i a Ha Hi. rewrite (std_path_iter _ _ Hsteps eq_refl _ _ Ha).
    by apply iter_collatz_pow2. }
  assert (Z.of_nat (length out) = k + 1) as Hlen.
  { destruct (Z.lt_trichotomy (Z.of_nat (length out)) (k + 1)) as [Hlt|[Heq|Hgt]];
      [exfalso | done | exfalso].
    - unfold CAP in Hend. destruct Hend as [Hlast|Hfull]; [|lia].
      rewrite last_lookup in Hlast.
      assert (0 < length out)%nat as Hne by (subst out; simpl; lia).
      apply Helem in Hlast; [|lia].
      assert (2 ^ 1 ≤ 2 ^ (k - Z.of_nat (pred (length out)))) as Hmono
        by (apply Z.pow_le_mono_r; lia).
      rewrite <- Hlast in Hmono. simpl in Hmono. lia.
    - destruct (lookup_lt_is_Some_2 out (Z.to_nat k) ltac:(lia)) as [a Ha].
      pose proof (Helem _ _ Ha ltac:(lia)) as ->.
      apply (Hone _ _ Ha); [lia|].
      replace (k - Z.of_nat (Z.to_nat k)) with 0 by lia. done. }
  exists out. split_and!; [done | done |].
  intros i Hi. destruct (lookup_lt_is_Some_2 out i ltac:(lia)) as [a Ha].
  rewrite Ha. f_equal. by apply Helem.
Qed.

Lemma trajectory_pow2_standard_witness :
  0 ≤ 5 ≤ 50000 ∧
  ∃ path, trajectory (2 ^ 5) false = Some path
          ∧ Z.of_nat (length path) = 5 + 1
          ∧ ∀ i, Z.of_nat i ≤ 5 → path !! i = Some (2 ^ (5 - Z.of_nat i)).
Proof. split; [lia | apply trajectory_pow2_standard; lia]. Defined.

(** X6. For every [k ≥ 1], [trajectory(2^k, ACCELERATED)] is [[2^k, 1]]:
    one accelerated step strips the whole power of two. *)
Theorem trajectory_pow2_accelerated (k : Z) :
  1 ≤ k → trajectory (2 ^ k) true = Some [2 ^ k; 1].
Proof.
  intros Hk.
  assert (2 ≤ 2 ^ k) as H2.
  { change 2 with (2 ^ 1) at 1. apply Z.pow_le_mono_r; lia. }
  destruct (trajectory_spec true (2 ^ k)) as (out & Hout & [ext ->] & _ & Hinv).
  destruct (Hinv ltac:(lia)) as [[_ Hsteps Hone _] _].
  pose proof (trajectory_two_elements _ _ _ H2 Hout) as Hext.
  destruct ext as [|y ext]; [done|].
  pose proof (Hsteps 0%nat (2 ^ k) y eq_refl eq_refl) as Hy. simpl in Hy.
  rewrite collatz_t3_pow2 in Hy by done. injection Hy as <-.
  destruct ext as [|z ext]; [done|].
  exfalso. apply (Hone 1%nat 1 eq_refl); [simpl; lia | done].
Qed.

Lemma trajectory_pow2_accelerated_witness :
  1 ≤ 60000 ∧ trajectory (2 ^ 60000) true = Some [2 ^ 60000; 1].
Proof. split; [lia | apply trajectory_pow2_accelerated; lia]. Defined.

(** X7. For every [max_n] and either rule, [stopping_times_plot] plots one
    point for each [n] from 2 to [max_n] (none when [max_n < 2]); the time
    of [n] is the length of its trajectory less one and lies between 1 and
    50,000. *)
Theorem stopping_times_range (max_n : Z) (accelerated : bool) :
  ∃ times, stopping_times_plot max_n accelerated = Some (seqZ 2 (max_n - 1), times)
           ∧ length times = Z.to_nat (max_n - 1)
           ∧ ∀ i t, times !! i = Some t →
                    1 ≤ t ≤ 50000
                    ∧ ∃ path, trajectory (2 + Z.of_nat i) accelerated = Some path
                              ∧ t = Z.of_nat (length path) - 1.
Proof.
  destruct (stopping_times_entries max_n accelerated) as (times & Hrun & Hall).
  exists times. split_and!; [done | |].
  - rewrite <- (Forall2_length _ _ _ Hall). apply length_seqZ.
  - intros i t Ht.
    destruct (Forall2_lookup_r _ _ _ _ _ Hall Ht) as (n & Hn & path & Hpath & ->).
    apply lookup_seqZ in Hn as [-> Hi].
    destruct (trajectory_spec accelerated (2 + Z.of_nat i))
      as (out & Hout & [ext ->] & _ & Hinv).
    rewrite Hpath in Hout. injection Hout as ->.
    destruct (Hinv ltac:(lia)) as [[_ _ _ Hcap] _]. unfold CAP in Hcap.
    pose proof (trajectory_two_elements accelerated (2 + Z.of_nat i) ext
                  ltac:(lia) Hpath) as Hext.
    split; [|by eexists].
    destruct ext; [done|]. simpl in *. lia.
Qed.

(** X8. The accelerated stopping time of every [n] plotted is at most its
    standard stopping time. *)
Theorem stopping_times_accelerated_le (max_n : Z) (ns ns' ta ts : list Z) :
  stopping_times_plot max_n true = Some (ns, ta) →
  stopping_times_plot max_n false = Some (ns', ts) →
  ns = ns' ∧ Forall2 Z.le ta ts.
Proof.
  intros Ha Hs.
  destruct (stopping_times_entries max_n true) as (ta' & Ha' & Hall_a).
  destruct (stopping_times_entries max_n false) as (ts' & Hs' & Hall_s).
  rewrite Ha in Ha'. injection Ha' as -> ->.
  rewrite Hs in Hs'. injection Hs' as -> ->.
  split; [done|].
  apply Forall2_same_length_lookup. split.
  - by rewrite <- (Forall2_length _ _ _ Hall_a), <- (Forall2_length _ _ _ Hall_s).
  - intros i a s Hia His.
    destruct (Forall2_lookup_r _ _ _ _ _ Hall_a Hia) as (n & Hn & pa & Hpa & ->).
    destruct (Forall2_lookup_r _ _ _ _ _ Hall_s His) as (n' & Hn' & ps & Hps & ->).
    rewrite Hn in Hn'. injection Hn' as <-.
    pose proof (accelerated_length_le n pa ps Hpa Hps). lia.
Qed.

Lemma stopping_times_accelerated_le_witness :
  stopping_times_plot 7 true = Some ([2; 3; 4; 5; 6; 7], [1; 2; 1; 1; 3; 5])
  ∧ stopping_times_plot 7 false = Some ([2; 3; 4; 5; 6; 7], [1; 7; 2; 5; 8; 16])
  ∧ [2; 3; 4; 5; 6; 7] = [2; 3; 4; 5; 6; 7]
  ∧ Forall2 Z.le [1; 2; 1; 1; 3; 5] [1; 7; 2; 5; 8; 16].
Proof.
  assert (stopping_times_plot 7 true = Some ([2; 3; 4; 5; 6; 7], [1; 2; 1; 1; 3; 5]))
    as Ha by (vm_compute; reflexivity).
  assert (stopping_times_plot 7 false = Some ([2; 3; 4; 5; 6; 7], [1; 7; 2; 5; 8; 16]))
    as Hs by (vm_compute; reflexivity).
  split_and!; [exact Ha | exact Hs | ..];
    apply (stopping_times_accelerated_le 7 _ _ _ _ Ha Hs).
Defined.

(** * Further properties of the bit-grid encoder *)

Section EncoderMore.

Lemma lsb_digits_testbit (p : positive) (k : nat) :
  (k < Pos.size_nat p)%nat →
  lsb_digits p !! k = Some (Z.b2z (Z.testbit (Z.pos p) (Z.of_nat k))).
Proof.
  revert k. induction p as [p IH|p IH|]; intros k Hk.
  - rewrite Pos2Z.inj_xI. destruct k as [|k]; simpl lookup.
    + by rewrite Z.testbit_odd_0.
    + rewrite Nat2Z.inj_succ, Z.testbit_odd_succ by lia.
      apply IH. simpl in Hk. lia.
  - rewrite Pos2Z.inj_xO. destruct k as [|k]; simpl lookup.
    + by rewrite Z.testbit_even_0.
    + rewrite Nat2Z.inj_succ, Z.testbit_even_succ by lia.
      apply IH. simpl in Hk. lia.
  - simpl in Hk. by replace k with 0%nat by lia.
Qed.

(** Digit [j] of the expansion, counted from the top, is bit number
    [bit_length v - 1 - j] of [v]. *)
Lemma msb_digits_testbit (v : Z) (j : nat) :
  0 < v → (j < bit_length v)%nat →
  msb_digits v !! j
  = Some (Z.b2z (Z.testbit v (Z.of_nat (bit_length v - 1 - j)))).
Proof.
  destruct v as [|p|p]; [lia | | lia]. intros _ Hj. simpl in *.
  rewrite reverse_lookup by (rewrite lsb_digits_length; lia).
  rewrite lsb_digits_length.
  replace (Pos.size_nat p - S j)%nat with (Pos.size_nat p - 1 - j)%nat by lia.
  apply lsb_digits_testbit. lia.
Qed.

(** Dropping the UNSET cells of an encoded row leaves its digits. *)
Lemma filter_set_digits (digits : list Z) (n : nat) :
  Forall (λ d, d = 0 ∨ d = 1) digits →
  filter (λ c, c ≠ EMPTY) (digits ++ replicate n EMPTY) = digits.
Proof.
  intros Hbin. rewrite filter_app.
  assert (filter (λ c, c ≠ EMPTY) (replicate n EMPTY) = []) as ->.
  { induction n as [|n IH]; [done|]. simpl. by rewrite filter_cons_False by auto. }
  rewrite app_nil_r.
  induction Hbin as [|d digits Hd _ IH]; [done|].
  rewrite filter_cons_True; [by rewrite IH|].
  unfold EMPTY. lia.
Qed.

End EncoderMore.

(** X9. [binary_grid] raises (the [max] of nothing) exactly when the
    trajectory has no positive value; the empty trajectory is one such. *)
Theorem binary_grid_raises_iff (traj : list Z) :
  binary_grid traj = None ↔ Forall (λ v, v ≤ 0) traj.
Proof.
  split.
  - intros Hnone. apply Forall_forall. intros v Hv.
    destruct (Z.le_gt_cases v 0) as [|Hpos]; [done|]. exfalso.
    destruct (binary_grid_total traj) as [g Hg]; [|congruence].
    exists v. split; [done | lia].
  - intros Hall. unfold binary_grid.
    assert (filter (λ v, 0 < v) traj = []) as ->; [|done].
    induction Hall as [|v traj Hv _ IH]; [done|].
    rewrite filter_cons_False by lia. done.
Qed.

(** X10. A grid that [binary_grid] returns has at least one row and one
    column, its rows are as many and as long as its shape says, and every
    cell is UNSET (-1), ZERO or ONE. *)
Theorem binary_grid_cells (traj : list Z) (grid : ndarray) :
  binary_grid traj = Some grid →
  (1 ≤ shape0 grid)%nat ∧ (1 ≤ shape1 grid)%nat
  ∧ length (data grid) = shape0 grid
  ∧ ∀ row, row ∈ data grid →
           length row = shape1 grid
           ∧ Forall (λ c, c = EMPTY ∨ c = 0 ∨ c = 1) row.
Proof.
  intros Hg. pose proof (binary_grid_row traj grid) as Hrow.
  specialize (Hrow) with (1 := Hg).
  pose proof (binary_grid_spec _ _ Hg) as (Hwf & H0 & Hmax & _).
  pose proof (py_max_spec _ _ Hmax) as [Hin _].
  apply list_elem_of_fmap in Hin as (v & Hv & [Hv0 Hvin]%list_elem_of_filter).
  split_and!.
  - rewrite H0. destruct traj; [by apply elem_of_nil in Hvin | simpl; lia].
  - rewrite Hv. destruct v as [|p|p]; [lia | | lia]. simpl. destruct p; simpl; lia.
  - by destruct Hwf.
  - intros row Hin. split.
    + destruct Hwf as [_ Hcols]. rewrite Forall_forall in Hcols. by apply Hcols.
    + apply list_elem_of_lookup in Hin as [i Hi].
      destruct (lookup_lt_is_Some_2 traj i) as [w Hw].
      { rewrite <- H0. destruct Hwf as [<- _]. by apply lookup_lt_Some in Hi. }
      rewrite (Hrow i w Hw) in Hi. injection Hi as <-.
      apply Forall_app. split.
      * eapply Forall_impl; [apply msb_digits_binary|]. simpl. tauto.
      * apply Forall_replicate. by left.
Qed.

Lemma binary_grid_cells_witness :
  binary_grid [5; 2] = Some (mk_ndarray 2 3 [[1; 0; 1]; [1; 0; -1]])
  ∧ (1 ≤ 2)%nat ∧ (1 ≤ 3)%nat
  ∧ length [[1; 0; 1]; [1; 0; -1]] = 2%nat
  ∧ ∀ row, row ∈ [[1; 0; 1]; [1; 0; -1]] →
           length row = 3%nat ∧ Forall (λ c, c = EMPTY ∨ c = 0 ∨ c = 1) row.
Proof.
  assert (binary_grid [5; 2] = Some (mk_ndarray 2 3 [[1; 0; 1]; [1; 0; -1]])) as Hg
    by (vm_compute; reflexivity).
  split; [exact Hg | exact (binary_grid_cells _ _ Hg)].
Defined.

(** X11. The row of a value that is not positive is UNSET throughout: the
    bit loop does not run for it. *)
Theorem binary_grid_nonpositive_row (traj : list Z) (grid : ndarray) (i : nat) (v : Z) :
  binary_grid traj = Some grid → traj !! i = Some v → v ≤ 0 →
  data grid !! i = Some (replicate (shape1 grid) EMPTY).
Proof.
  intros Hg Hv Hle. rewrite (binary_grid_row _ _ _ _ Hg Hv).
  rewrite msb_digits_nonpos by done. simpl. by rewrite Nat.sub_0_r.
Qed.

Lemma binary_grid_nonpositive_row_witness :
  binary_grid [5; 0; -3]
  = Some (mk_ndarray 3 3 [[1; 0; 1]; [-1; -1; -1]; [-1; -1; -1]])
  ∧ [5; 0; -3] !! 2%nat = Some (-3) ∧ -3 ≤ 0
  ∧ [[1; 0; 1]; [-1; -1; -1]; [-1; -1; -1]] !! 2%nat = Some (replicate 3 EMPTY).
Proof.
  assert (binary_grid [5; 0; -3]
          = Some (mk_ndarray 3 3 [[1; 0; 1]; [-1; -1; -1]; [-1; -1; -1]])) as Hg
    by (vm_compute; reflexivity).
  split_and!; [exact Hg | reflexivity | lia |].
  exact (binary_grid_nonpositive_row _ _ 2 (-3) Hg eq_refl ltac:(lia)).
Defined.

(** X12. Cell [(i, j)] of the grid, for [j] below the bit length of the
    positive value [traj[i]], is bit number [bitlen - 1 - j] of that value;
    in particular column 0 is ONE. *)
Theorem binary_grid_cell_bit (traj : list Z) (grid : ndarray) (i : nat) (v : Z) :
  binary_grid traj = Some grid → traj !! i = Some v → 0 < v →
  (∀ j, (j < bit_length v)%nat →
        getitem grid i j
        = Some (Z.b2z (Z.testbit v (Z.of_nat (bit_length v - 1 - j)))))
  ∧ getitem grid i 0 = Some 1.
Proof.
  intros Hg Hv Hpos. pose proof (digits_fit traj (shape1 grid)) as Hfit.
  apply binary_grid_spec in Hg as (Hwf & H0 & Hmax & Hget).
  specialize (Hfit Hmax). rewrite Forall_forall in Hfit.
  specialize (Hfit v (list_elem_of_lookup_2 _ _ _ Hv)).
  pose proof (msb_digits_length v Hpos) as Hlen.
  assert (∀ j, (j < bit_length v)%nat →
               getitem grid i j
               = Some (Z.b2z (Z.testbit v (Z.of_nat (bit_length v - 1 - j)))))
    as Hcells.
  { intros j Hj. rewrite (Hget i v j Hv) by lia. rewrite decide_True by lia.
    by apply msb_digits_testbit. }
  split; [done|].
  assert (0 < bit_length v)%nat as Hbl.
  { destruct v as [|p|p]; [lia | | lia]. simpl. destruct p; simpl; lia. }
  rewrite (Hcells 0%nat Hbl).
  replace (Z.of_nat (bit_length v - 1 - 0)) with (Z.log2 v)
    by (pose proof (bit_length_log2 v Hpos); lia).
  by rewrite Z.bit_log2.
Qed.

Lemma binary_grid_cell_bit_witness :
  binary_grid [6; 3] = Some (mk_ndarray 2 3 [[1; 1; 0]; [1; 1; -1]])
  ∧ [6; 3] !! 0%nat = Some 6 ∧ 0 < 6
  ∧ (∀ j, (j < bit_length 6)%nat →
          getitem (mk_ndarray 2 3 [[1; 1; 0]; [1; 1; -1]]) 0 j
          = Some (Z.b2z (Z.testbit 6 (Z.of_nat (bit_length 6 - 1 - j)))))
  ∧ getitem (mk_ndarray 2 3 [[1; 1; 0]; [1; 1; -1]]) 0 0 = Some 1.
Proof.
  assert (binary_grid [6; 3] = Some (mk_ndarray 2 3 [[1; 1; 0]; [1; 1; -1]])) as Hg
    by (vm_compute; reflexivity).
  split_and!; [exact Hg | reflexivity | lia | ..];
    apply (binary_grid_cell_bit _ _ 0 6 Hg eq_refl ltac:(lia)).
Defined.

(** X13. [binary_grid] loses nothing on positive values: two trajectories of
    positive integers with the same grid are the same trajectory. *)
Theorem binary_grid_injective (traj1 traj2 : list Z) (grid : ndarray) :
  Forall (λ v, 0 < v) traj1 → Forall (λ v, 0 < v) traj2 →
  binary_grid traj1 = Some grid → binary_grid traj2 = Some grid →
  traj1 = traj2.
Proof.
  intros Hpos1 Hpos2 Hg1 Hg2.
  pose proof (binary_grid_row traj1 grid) as Hrow1. specialize (Hrow1) with (1 := Hg1).
  pose proof (binary_grid_row traj2 grid) as Hrow2. specialize (Hrow2) with (1 := Hg2).
  pose proof (binary_grid_spec _ _ Hg1) as (_ & Hlen1 & _).
  pose proof (binary_grid_spec _ _ Hg2) as (_ & Hlen2 & _).
  rewrite Forall_forall in Hpos1, Hpos2.
  apply list_eq_same_length with (n := shape0 grid); [done | done |].
  intros i v1 v2 _ Hv1 Hv2.
  pose proof (Hrow1 i v1 Hv1) as Hr1. rewrite (Hrow2 i v2 Hv2) in Hr1.
  injection Hr1 as Hrows.
  apply (f_equal (filter (λ c, c ≠ EMPTY))) in Hrows.
  rewrite !filter_set_digits in Hrows by apply msb_digits_binary.
  rewrite <- (msb_digits_value v1), <- (msb_digits_value v2), Hrows; [done | |].
  - apply Hpos2. by eapply list_elem_of_lookup_2.
  - apply Hpos1. by eapply list_elem_of_lookup_2.
Qed.

Lemma binary_grid_injective_witness :
  Forall (λ v, 0 < v) [4; 2; 1]
  ∧ binary_grid [4; 2; 1] = Some (mk_ndarray 3 3 [[1; 0; 0]; [1; 0; -1]; [1; -1; -1]])
  ∧ [4; 2; 1] = [4; 2; 1].
Proof.
  assert (Forall (λ v, 0 < v) [4; 2; 1]) as Hpos by (repeat constructor).
  assert (binary_grid [4; 2; 1]
          = Some (mk_ndarray 3 3 [[1; 0; 0]; [1; 0; -1]; [1; -1; -1]])) as Hg
    by (vm_compute; reflexivity).
  split_and!; [exact Hpos | exact Hg | exact (binary_grid_injective _ _ _ Hpos Hpos Hg Hg)].
Defined.

(** * Further properties of the frame compositor *)

Section PaintingMore.

Lemma add_fills_nil (c : Canvas) : add_fills c [] = c.
Proof. destruct c. unfold add_fills. simpl. by rewrite app_nil_r. Qed.

Lemma add_fills_app (c : Canvas) (l k : list (Z * Z * Z * Z * color)) :
  add_fills (add_fills c l) k = add_fills c (l ++ k).
Proof. unfold add_fills. simpl. by rewrite app_assoc. Qed.

Lemma draw_rectangle_add_fills (c : Canvas) (box : Z * Z * Z * Z) (fill : color) :
  draw_rectangle c box fill = add_fills c [(box, fill)].
Proof. done. Qed.

Lemma row_rects_length (cell gap : Z) (px : nat → Z) (py : Z) (one zero : color)
    (digits : list Z) :
  length (row_rects cell gap px py one zero digits) = length digits.
Proof. unfold row_rects. apply length_imap. Qed.

(** Painting the row of [traj[r]] appends one rectangle for each of its
    binary digits, in column order, and nothing for the UNSET cells. *)
Lemma paint_row_exact (traj : list Z) (grid : ndarray) (cell gap : Z)
    (px : nat → Z) (py : Z) (r : nat) (v : Z) (one zero : color) (c : Canvas) :
  binary_grid traj = Some grid → traj !! r = Some v →
  for_each (paint_cell grid cell gap px py r one zero) (seq 0 (shape1 grid)) c
  = Some (add_fills c (row_rects cell gap px py one zero (msb_digits v))).
Proof.
  intros Hg Hv. pose proof (digits_fit traj (shape1 grid)) as Hfit.
  apply binary_grid_spec in Hg as (Hwf & H0 & Hmax & Hget).
  specialize (Hfit Hmax). rewrite Forall_forall in Hfit.
  specialize (Hfit v (list_elem_of_lookup_2 _ _ _ Hv)).
  set (rects := row_rects cell gap px py one zero (msb_digits v)).
  destruct (for_each_seq_inv (λ k c', c' = add_fills c (take k rects))
              (paint_cell grid cell gap px py r one zero) 0 (shape1 grid) c)
    as (c' & Hrun & ->).
  - simpl. by rewrite add_fills_nil.
  - intros k c1 Hk ->. unfold paint_cell.
    rewrite (Hget r v k Hv) by lia.
    destruct (decide (k < length (msb_digits v))%nat) as [Hin|Hout].
    + destruct (lookup_lt_is_Some_2 (msb_digits v) k Hin) as [d Hd].
      rewrite Hd. cbn [mbind option_bind].
      pose proof (msb_digits_binary v) as Hbin. rewrite Forall_lookup in Hbin.
      specialize (Hbin k d Hd).
      assert ((d =? EMPTY) = false) as -> by (apply Z.eqb_neq; unfold EMPTY; lia).
      eexists. split; [done|].
      rewrite draw_rectangle_add_fills, add_fills_app. f_equal.
      symmetry. apply take_S_r. unfold rects, row_rects.
      by rewrite list_lookup_imap, Hd.
    + cbn [mbind option_bind]. change (EMPTY =? EMPTY) with true.
      eexists. split; [done|]. f_equal.
      rewrite !take_ge; [done | |]; unfold rects; rewrite row_rects_length; lia.
  - rewrite Hrun. do 2 f_equal. apply take_ge.
    unfold rects. rewrite row_rects_length. simpl. lia.
Qed.

(** The rectangles of a row lie inside a [w] by [h] image when its cells do
    and a cell has room for its gap. *)
Lemma row_rects_inside (cell gap w h : Z) (px : nat → Z) (py : Z)
    (one zero : color) (digits : list Z) :
  0 ≤ gap → 2 * gap + 1 ≤ cell →
  (∀ j, (j < length digits)%nat → 0 ≤ px j ∧ px j + cell ≤ w) →
  0 ≤ py → py + cell ≤ h →
  Forall (rect_inside w h) (row_rects cell gap px py one zero digits).
Proof.
  intros Hgap Hcell Hpx Hpy Hpy'. apply Forall_lookup. intros j fill Hj.
  unfold row_rects in Hj. rewrite list_lookup_imap in Hj.
  destruct (digits !! j) as [d|] eqn:Hd; [|done]. simpl in Hj. injection Hj as <-.
  apply lookup_lt_Some in Hd. specialize (Hpx j Hd).
  unfold cell_rect, rect_inside. lia.
Qed.

End PaintingMore.

Section SpacetimeMore.

Lemma frame_fills_S (hi base : nat → list (Z * Z * Z * Z * color)) (r : nat) :
  frame_fills hi base (S r) = frame_fills hi base r ++ base r ++ hi (S r).
Proof.
  unfold frame_fills. rewrite seq_S, fmap_app, concat_app. simpl.
  rewrite app_nil_r. by rewrite <- !app_assoc.
Qed.

Lemma frame_fills_Forall (P : Z * Z * Z * Z * color → Prop)
    (hi base : nat → list (Z * Z * Z * Z * color)) (n r : nat) :
  (∀ i, (i < n)%nat → Forall P (hi i) ∧ Forall P (base i)) → (r < n)%nat →
  Forall P (frame_fills hi base r) ∧ Forall P (frame_fills hi base r ++ base r).
Proof.
  intros Hall Hr. induction r as [|r IH].
  - destruct (Hall 0%nat Hr) as [Hhi Hbase]. unfold frame_fills. simpl.
    split; [done | by apply Forall_app].
  - destruct (IH ltac:(lia)) as [_ IH']. destruct (Hall (S r) Hr) as [Hhi Hbase].
    rewrite frame_fills_S.
    assert (Forall P (frame_fills hi base r ++ base r ++ hi (S r))) as H.
    { rewrite app_assoc. by apply Forall_app. }
    split; [done | by apply Forall_app].
Qed.

(** A trajectory that has a grid is not empty. *)
Lemma binary_grid_rows (traj : list Z) (grid : ndarray) :
  binary_grid traj = Some grid → shape0 grid = length traj ∧ (0 < length traj)%nat.
Proof.
  intros Hg. pose proof (binary_grid_spec _ _ Hg) as (_ & H0 & _).
  split; [done|]. destruct traj; [done | simpl; lia].
Qed.

Lemma row_draw_exact (traj : list Z) (grid : ndarray) (cell gap : Z) (r : nat)
    (one zero : color) (c : Canvas) :
  binary_grid traj = Some grid → (r < length traj)%nat →
  row_draw grid (shape1 grid) 10 cell gap r one zero c
  = Some (add_fills c (spacetime_rects cell gap traj one zero r)).
Proof.
  intros Hg Hr. destruct (lookup_lt_is_Some_2 traj r Hr) as [v Hv].
  unfold row_draw, spacetime_rects. rewrite Hv. simpl from_option.
  by apply paint_row_exact with (traj := traj).
Qed.

(** Every frame of the single-trajectory animation, in closed form. *)
Lemma spacetime_gif_frames (n : Z) (accelerated : bool) (target_h : Z)
    (traj : list Z) (grid : ndarray) (cell gap : Z) (c0 : Canvas) :
  trajectory n accelerated = Some traj → binary_grid traj = Some grid →
  cell = Z.max 4 (Z.min 20 (target_h / Z.of_nat (shape0 grid))) →
  gap = (if 8 <=? cell then 1 else 0) →
  c0 = Image_new (Z.of_nat (shape1 grid) * cell + 2 * 10)
                 (Z.of_nat (shape0 grid) * cell + 2 * 10) BG →
  spacetime_gif n accelerated target_h
  = Some (((λ r, add_fills c0
                   (frame_fills
                      (spacetime_rects cell gap traj (_bright PAL_DEFAULT.1 40)
                                       (_bright PAL_DEFAULT.2 14))
                      (spacetime_rects cell gap traj PAL_DEFAULT.1 PAL_DEFAULT.2) r))
           <$> seq 0 (shape0 grid))
          ++ replicate 30
               (add_fills c0
                  (concat ((λ i, spacetime_rects cell gap traj (_bright PAL_DEFAULT.1 40)
                                                 (_bright PAL_DEFAULT.2 14) i
                                 ++ spacetime_rects cell gap traj PAL_DEFAULT.1
                                                    PAL_DEFAULT.2 i)
                           <$> seq 0 (shape0 grid)))),
          shape0 grid).
Proof.
  intros Htraj Hgrid -> -> ->.
  pose proof (binary_grid_rows _ _ Hgrid) as [H0 Hne].
  unfold spacetime_gif.
  rewrite Htraj. cbn [mbind option_bind]. rewrite Hgrid. cbn [mbind option_bind].
  unfold floordiv. destruct (Z.eqb_spec (Z.of_nat (shape0 grid)) 0) as [E|_]; [lia|].
  cbn [mbind option_bind]. unfold PAL_DEFAULT. cbv zeta. cbn [fst snd].
  set (cell := Z.max 4 (Z.min 20 (target_h / Z.of_nat (shape0 grid)))).
  set (gap := if 8 <=? cell then 1 else 0).
  set (c0 := Image_new _ _ BG).
  set (hi := spacetime_rects cell gap traj (_bright (232, 160, 32) 40)
                             (_bright (20, 34, 56) 14)).
  set (base := spacetime_rects cell gap traj (232, 160, 32) (20, 34, 56)).
  set (F := λ r, add_fills c0 (frame_fills hi base r)).
  match goal with
  | |- context [for_each ?body (seq 0 ?len) ?init] =>
      destruct (for_each_seq_inv
                  (λ k st, st.2 = F <$> seq 0 k
                           ∧ st.1 = match k with O => c0 | S k' => F k' end)
                  body 0 len init)
        as ([canvas frames] & Hrun & Hframes & Hcanvas)
  end.
  - done.
  - intros k [c fr] Hk [Hfr Hc]. simpl in Hfr, Hc. subst fr c.
    destruct k as [|k].
    + rewrite decide_False by lia. cbn [mbind option_bind].
      rewrite (row_draw_exact traj) by (done || lia). cbn [mbind option_bind].
      eexists. split; [done|]. simpl. split; [|done].
      unfold F, frame_fills. simpl. done.
    + rewrite decide_True by lia. replace (S k - 1)%nat with k by lia.
      rewrite (row_draw_exact traj) by (done || lia). cbn [mbind option_bind].
      rewrite (row_draw_exact traj) by (done || lia). cbn [mbind option_bind].
      eexists. split; [done|]. cbn [fst snd].
      assert (add_fills (add_fills (F k) (base k)) (hi (S k)) = F (S k)) as Hnext.
      { unfold F. by rewrite !add_fills_app, frame_fills_S. }
      split; [|exact Hnext].
      rewrite (seq_S (S k)), fmap_app. f_equal. simpl. f_equal. exact Hnext.
  - rewrite Hrun. cbn [mbind option_bind]. simpl in Hframes, Hcanvas.
    rewrite (row_draw_exact traj) by (done || lia). cbn [mbind option_bind].
    rewrite Hframes. do 3 f_equal. unfold HOLD. f_equal.
    destruct (shape0 grid) as [|m] eqn:Hm; [lia|].
    rewrite Hcanvas. replace (S m - 1)%nat with m by lia.
    unfold F. rewrite add_fills_app. f_equal.
    unfold frame_fills. rewrite (seq_S m), fmap_app, concat_app. simpl.
    rewrite app_nil_r. by rewrite <- !app_assoc.
Qed.

End SpacetimeMore.

Section SceneFacts.

Lemma binary_grid_cols (traj : list Z) (grid : ndarray) :
  binary_grid traj = Some grid → (1 ≤ shape1 grid)%nat.
Proof.
  intros Hg. apply binary_grid_spec in Hg as (_ & _ & Hmax & _).
  apply py_max_spec in Hmax as [Hin _].
  apply list_elem_of_fmap in Hin as (v & -> & [Hv0 _]%list_elem_of_filter).
  destruct v as [|p|p]; [lia | | lia]. simpl. destruct p; simpl; lia.
Qed.

(** A start value from 1 on has a trajectory and the trajectory a grid. *)
Lemma scene_inputs (n : Z) (accelerated : bool) :
  1 ≤ n →
  ∃ traj grid, trajectory n accelerated = Some traj ∧ binary_grid traj = Some grid
               ∧ shape0 grid = length traj ∧ (0 < length traj)%nat.
Proof.
  intros Hn.
  destruct (trajectory_spec accelerated n) as (traj & Htraj & [ext ->] & _ & _).
  destruct (binary_grid_total (n :: ext)) as [grid Hgrid].
  { exists n. split; [by left | lia]. }
  exists (n :: ext), grid. split_and!; [done | done | |];
    by apply binary_grid_rows in Hgrid as [? ?].
Qed.

(** A start value below 1 has the trajectory [[n]], which has no grid. *)
Lemma scene_inputs_none (n : Z) (accelerated : bool) :
  n ≤ 0 → trajectory n accelerated = Some [n] ∧ binary_grid [n] = None.
Proof.
  intros Hn. split.
  - destruct (trajectory_spec accelerated n) as (out & -> & _ & Hone & _).
    by rewrite Hone by lia.
  - unfold binary_grid. by rewrite filter_cons_False by lia.
Qed.

Lemma spacetime_rects_inside (traj : list Z) (grid : ndarray) (cell gap : Z)
    (one zero : color) (r : nat) :
  binary_grid traj = Some grid → (r < length traj)%nat →
  0 ≤ gap → 2 * gap + 1 ≤ cell →
  Forall (rect_inside (Z.of_nat (shape1 grid) * cell + 2 * 10)
                      (Z.of_nat (length traj) * cell + 2 * 10))
         (spacetime_rects cell gap traj one zero r).
Proof.
  intros Hg Hr Hgap Hcell. unfold spacetime_rects.
  destruct (lookup_lt_is_Some_2 traj r Hr) as [v Hv]. rewrite Hv. simpl from_option.
  pose proof (digits_fit traj (shape1 grid)) as Hfit.
  apply binary_grid_spec in Hg as (_ & _ & Hmax & _).
  specialize (Hfit Hmax). rewrite Forall_forall in Hfit.
  specialize (Hfit v (list_elem_of_lookup_2 _ _ _ Hv)).
  apply row_rects_inside; [done | done | | nia | nia].
  intros j Hj. nia.
Qed.

End SceneFacts.

(** X14. On the grid of a trajectory and with a cell that has room for its
    gap, [_draw_row] for the row of [traj[row]] adds exactly one rectangle
    per binary digit of that value, in column
    order and in the one-colour or the zero-colour by the digit, and leaves
    the rest of the canvas as it was; for a row index past the last row it
    raises. *)
Theorem draw_row_exact (traj : list Z) (grid : ndarray) (canvas : Canvas)
    (col_off cell gap : Z) (c1 c0 : color) :
  0 ≤ gap → 2 * gap + 1 ≤ cell → binary_grid traj = Some grid →
  (∀ row v, traj !! row = Some v →
     _draw_row canvas grid row col_off cell gap c1 c0
     = Some (add_fills canvas
               (row_rects cell gap (λ j, (col_off + Z.of_nat j) * cell)
                          (Z.of_nat row * cell) c1 c0 (msb_digits v))))
  ∧ (∀ row, (length traj ≤ row)%nat →
       _draw_row canvas grid row col_off cell gap c1 c0 = None).
Proof.
  intros _ _ Hg. split.
  - intros row v Hv. unfold _draw_row. by apply paint_row_exact with (traj := traj).
  - intros row Hrow. unfold _draw_row.
    pose proof (binary_grid_cols _ _ Hg) as Hcols.
    pose proof (binary_grid_rows _ _ Hg) as [H0 _].
    destruct (shape1 grid) as [|m] eqn:Hm; [lia|]. cbn [seq for_each].
    assert (getitem grid row 0 = None) as Hout by (apply getitem_outside; lia).
    assert (∀ px py, paint_cell grid cell gap px py row c1 c0 0 canvas = None) as Hp
      by (intros; unfold paint_cell; by rewrite Hout).
    by rewrite Hp.
Qed.

Lemma draw_row_exact_witness :
  binary_grid [5; 2] = Some (mk_ndarray 2 3 [[1; 0; 1]; [1; 0; -1]])
  ∧ _draw_row (Image_new 30 20 BG) (mk_ndarray 2 3 [[1; 0; 1]; [1; 0; -1]])
              1 0 10 1 (255, 0, 0) (0, 0, 255)
    = Some (add_fills (Image_new 30 20 BG)
              (row_rects 10 1 (λ j, (0 + Z.of_nat j) * 10) (Z.of_nat 1 * 10)
                         (255, 0, 0) (0, 0, 255) (msb_digits 2)))
  ∧ _draw_row (Image_new 30 20 BG) (mk_ndarray 2 3 [[1; 0; 1]; [1; 0; -1]])
              2 0 10 1 (255, 0, 0) (0, 0, 255) = None.
Proof.
  assert (binary_grid [5; 2] = Some (mk_ndarray 2 3 [[1; 0; 1]; [1; 0; -1]])) as Hg
    by (vm_compute; reflexivity).
  split_and!; [exact Hg | |].
  - exact (proj1 (draw_row_exact _ _ _ 0 10 1 _ _ ltac:(lia) ltac:(lia) Hg)
                 1%nat 2 eq_refl).
  - apply (proj2 (draw_row_exact _ _ (Image_new 30 20 BG) 0 10 1
                                 (255, 0, 0) (0, 0, 255) ltac:(lia) ltac:(lia) Hg)
                 2%nat).
    simpl. lia.
Defined.

(** X15. The frames of [spacetime_gif] in closed form, for [n ≥ 1].  Frame
    [r] is the empty canvas with, for every earlier row in order, its
    highlight and then its settling, and last the highlight of row [r];
    the 30 held frames are the canvas with every row highlighted and
    settled.  So each frame is the one before it with one row settled and
    the next highlighted. *)
Theorem spacetime_frames_exact (n : Z) (accelerated : bool) (target_h : Z) :
  1 ≤ n →
  ∃ traj grid cell gap c0 hi base,
    trajectory n accelerated = Some traj ∧ binary_grid traj = Some grid
    ∧ cell = Z.max 4 (Z.min 20 (target_h / Z.of_nat (length traj)))
    ∧ gap = (if 8 <=? cell then 1 else 0)
    ∧ c0 = Image_new (Z.of_nat (shape1 grid) * cell + 20)
                     (Z.of_nat (length traj) * cell + 20) BG
    ∧ hi = spacetime_rects cell gap traj (_bright (232, 160, 32) 40)
                           (_bright (20, 34, 56) 14)
    ∧ base = spacetime_rects cell gap traj (232, 160, 32) (20, 34, 56)
    ∧ spacetime_gif n accelerated target_h
      = Some (((λ r, add_fills c0 (frame_fills hi base r)) <$> seq 0 (length traj))
              ++ replicate 30
                   (add_fills c0 (concat ((λ i, hi i ++ base i)
                                          <$> seq 0 (length traj)))),
              length traj).
Proof.
  intros Hn. destruct (scene_inputs n accelerated Hn) as (traj & grid & Ht & Hg & H0 & _).
  exists traj, grid. do 5 eexists.
  split_and!; [done | done | reflexivity | reflexivity | reflexivity
               | reflexivity | reflexivity |].
  rewrite <- H0.
  by rewrite (spacetime_gif_frames n accelerated target_h traj grid _ _ _
                                   Ht Hg eq_refl eq_refl eq_refl).
Qed.

Lemma spacetime_frames_exact_witness :
  1 ≤ 2 ∧
  ∃ traj grid cell gap c0 hi base,
    trajectory 2 true = Some traj ∧ binary_grid traj = Some grid
    ∧ cell = Z.max 4 (Z.min 20 (850 / Z.of_nat (length traj)))
    ∧ gap = (if 8 <=? cell then 1 else 0)
    ∧ c0 = Image_new (Z.of_nat (shape1 grid) * cell + 20)
                     (Z.of_nat (length traj) * cell + 20) BG
    ∧ hi = spacetime_rects cell gap traj (_bright (232, 160, 32) 40)
                           (_bright (20, 34, 56) 14)
    ∧ base = spacetime_rects cell gap traj (232, 160, 32) (20, 34, 56)
    ∧ spacetime_gif 2 true 850
      = Some (((λ r, add_fills c0 (frame_fills hi base r)) <$> seq 0 (length traj))
              ++ replicate 30
                   (add_fills c0 (concat ((λ i, hi i ++ base i)
                                          <$> seq 0 (length traj)))),
              length traj).
Proof. split; [lia | apply spacetime_frames_exact; lia]. Defined.

(** X16. For [n ≥ 1] the cell size of [spacetime_gif] is between 4 and 20
    whatever the target height; every frame has the size and background of
    the first canvas, and every rectangle painted on it is non-empty and
    lies inside the image. *)
Theorem spacetime_frames_geometry (n : Z) (accelerated : bool) (target_h : Z) :
  1 ≤ n →
  ∃ traj grid frames cell,
    trajectory n accelerated = Some traj ∧ binary_grid traj = Some grid
    ∧ spacetime_gif n accelerated target_h = Some (frames, length traj)
    ∧ cell = Z.max 4 (Z.min 20 (target_h / Z.of_nat (length traj)))
    ∧ 4 ≤ cell ≤ 20
    ∧ ∀ f, f ∈ frames →
           width f = Z.of_nat (shape1 grid) * cell + 20
           ∧ height f = Z.of_nat (length traj) * cell + 20
           ∧ background f = BG
           ∧ Forall (rect_inside (width f) (height f)) (fills f).
Proof.
  intros Hn. destruct (scene_inputs n accelerated Hn) as (traj & grid & Ht & Hg & H0 & _).
  exists traj, grid. eexists. exists (Z.max 4 (Z.min 20 (target_h / Z.of_nat (length traj)))).
  split_and!; [done | done | | done | lia | lia |].
  - rewrite <- H0.
    by rewrite (spacetime_gif_frames n accelerated target_h traj grid _ _ _
                                     Ht Hg eq_refl eq_refl eq_refl).
  - rewrite H0.
    set (cell := Z.max 4 (Z.min 20 (target_h / Z.of_nat (length traj)))).
    set (gap := if 8 <=? cell then 1 else 0).
    assert (0 ≤ gap ∧ 2 * gap + 1 ≤ cell) as [Hgap Hcell].
    { subst gap. destruct (Z.leb_spec 8 cell); lia. }
    assert (∀ one zero i, (i < length traj)%nat →
              Forall (rect_inside (Z.of_nat (shape1 grid) * cell + 20)
                                  (Z.of_nat (length traj) * cell + 20))
                     (spacetime_rects cell gap traj one zero i)) as Hin.
    { intros. by apply spacetime_rects_inside. }
    intros f [Hf|Hf]%elem_of_app.
    + apply list_elem_of_fmap in Hf as (r & -> & Hr).
      apply elem_of_seq in Hr as [_ Hr]. simpl in Hr.
      split_and!; [done..|]. simpl.
      eapply frame_fills_Forall; [|exact Hr]. intros i Hi. split; by apply Hin.
    + apply elem_of_replicate in Hf as [-> _].
      split_and!; [done..|]. simpl.
      apply Forall_concat, Forall_fmap, Forall_forall. intros i Hi.
      apply elem_of_seq in Hi as [_ Hi]. simpl in Hi.
      apply Forall_app. split; by apply Hin.
Qed.

Lemma spacetime_frames_geometry_witness :
  1 ≤ 27 ∧
  ∃ traj grid frames cell,
    trajectory 27 true = Some traj ∧ binary_grid traj = Some grid
    ∧ spacetime_gif 27 true 850 = Some (frames, length traj)
    ∧ cell = Z.max 4 (Z.min 20 (850 / Z.of_nat (length traj)))
    ∧ 4 ≤ cell ≤ 20
    ∧ ∀ f, f ∈ frames →
           width f = Z.of_nat (shape1 grid) * cell + 20
           ∧ height f = Z.of_nat (length traj) * cell + 20
           ∧ background f = BG
           ∧ Forall (rect_inside (width f) (height f)) (fills f).
Proof. split; [lia | apply spacetime_frames_geometry; lia]. Defined.


Section LandscapeMore.

Lemma for_each_ext {A S : Type} (f g : A → S → option S) (l : list A) (s : S) :
  (∀ a s, f a s = g a s) → for_each f l s = for_each g l s.
Proof.
  intros Hfg. revert s. induction l as [|a l IH]; intros s; [done|].
  simpl. rewrite Hfg. destruct (g a s) as [s'|]; [apply IH | done].
Qed.

(** The cell painter of [landscape_png] is the common one without gap. *)
Lemma landscape_cell_paint (grid : ndarray) (cell : Z) (c1 c0 : color)
    (i j : nat) (img : Canvas) :
  landscape_cell grid cell c1 c0 i j img
  = paint_cell grid cell 0 (λ j, Z.of_nat j * cell) (Z.of_nat i * cell)
               i c1 c0 j img.
Proof.
  unfold landscape_cell, paint_cell.
  destruct (getitem grid i j) as [v|]; [|done]. cbn [mbind option_bind].
  destruct (v =? EMPTY); [done|]. cbv zeta.
  by rewrite !Z.add_0_r, !Z.sub_0_r.
Qed.

(** The image of [landscape_png] in closed form. *)
Lemma landscape_png_image (n : Z) (accelerated : bool) (cell : Z)
    (traj : list Z) (grid : ndarray) :
  trajectory n accelerated = Some traj → binary_grid traj = Some grid →
  landscape_png n accelerated cell
  = Some (add_fills (Image_new (Z.of_nat (shape1 grid) * cell)
                               (Z.of_nat (length traj) * cell) BG)
                    (landscape_rects cell traj)).
Proof.
  intros Ht Hg. pose proof (binary_grid_rows _ _ Hg) as [H0 _].
  unfold landscape_png. rewrite Ht. cbn [mbind option_bind].
  rewrite Hg. cbn [mbind option_bind]. unfold PAL_DEFAULT. cbv zeta.
  rewrite H0. set (c0 := Image_new _ _ BG).
  set (rows := imap (λ i v, row_rects cell 0 (λ j, Z.of_nat j * cell)
                                      (Z.of_nat i * cell)
                                      (232, 160, 32) (20, 34, 56) (msb_digits v))
                    traj).
  match goal with
  | |- context [for_each ?body (seq 0 ?len) c0] =>
      destruct (for_each_seq_inv
                  (λ k img, img = add_fills c0 (concat (take k rows)))
                  body 0 len c0)
        as (img & Hrun & ->)
  end.
  - simpl. by rewrite add_fills_nil.
  - intros k img Hk ->.
    destruct (lookup_lt_is_Some_2 traj k ltac:(lia)) as [v Hv].
    rewrite (for_each_ext _ _ _ _ (landscape_cell_paint grid cell _ _ k)).
    rewrite (paint_row_exact traj grid _ _ _ _ k v) by done.
    eexists. split; [done|]. rewrite add_fills_app. f_equal.
    rewrite (take_S_r rows k
               (row_rects cell 0 (λ j, Z.of_nat j * cell) (Z.of_nat k * cell)
                          (232, 160, 32) (20, 34, 56) (msb_digits v))).
    + rewrite concat_app. simpl. by rewrite app_nil_r.
    + unfold rows. by rewrite list_lookup_imap, Hv.
  - rewrite Hrun. do 2 f_equal. unfold landscape_rects. fold rows. f_equal.
    apply take_ge. unfold rows. rewrite length_imap. simpl. lia.
Qed.

Lemma concat_imap_length {A B : Type} (f : nat → A → list B) (g : A → nat)
    (l : list A) :
  (∀ i x, l !! i = Some x → length (f i x) = g x) →
  length (concat (imap f l)) = sum_list (g <$> l).
Proof.
  revert f. induction l as [|x l IH]; intros f Hf; [done|].
  simpl. rewrite length_app, (Hf 0%nat x eq_refl). f_equal.
  apply IH. intros i y Hy. apply (Hf (S i) y Hy).
Qed.

Lemma concat_imap_Forall {A B : Type} (P : B → Prop) (f : nat → A → list B)
    (l : list A) :
  (∀ i x, l !! i = Some x → Forall P (f i x)) → Forall P (concat (imap f l)).
Proof.
  revert f. induction l as [|x l IH]; intros f Hf; [constructor|].
  simpl. apply Forall_app. split; [by apply (Hf 0%nat) |].
  apply IH. intros i y Hy. apply (Hf (S i) y Hy).
Qed.

End LandscapeMore.

(** X18. For [n ≥ 1] and a cell of at least one pixel, [landscape_png]
    paints an image of [ncols * cell] by [nrows * cell] pixels with one
    rectangle per binary digit of the trajectory, row after row and left to
    right: as many rectangles as the bit lengths of the trajectory add up
    to, each of them inside the image. *)
Theorem landscape_png_exact (n : Z) (accelerated : bool) (cell : Z) :
  1 ≤ n → 1 ≤ cell →
  ∃ traj grid img,
    trajectory n accelerated = Some traj ∧ binary_grid traj = Some grid
    ∧ landscape_png n accelerated cell = Some img
    ∧ width img = Z.of_nat (shape1 grid) * cell
    ∧ height img = Z.of_nat (length traj) * cell
    ∧ background img = BG
    ∧ fills img = landscape_rects cell traj
    ∧ length (fills img) = sum_list (bit_length <$> traj)
    ∧ Forall (rect_inside (width img) (height img)) (fills img).
Proof.
  intros Hn Hcell.
  destruct (scene_inputs n accelerated Hn) as (traj & grid & Ht & Hg & H0 & _).
  exists traj, grid. eexists.
  split_and!; [done | done | by apply landscape_png_image | done..| |]; simpl.
  - apply concat_imap_length. intros i v Hv.
    rewrite row_rects_length. apply msb_digits_length.
    destruct (trajectory_spec accelerated n) as (out & Hout & _ & _ & Hinv).
    rewrite Ht in Hout. injection Hout as <-.
    destruct (Hinv Hn) as [[Hpos _ _ _] _]. rewrite Forall_lookup in Hpos.
    specialize (Hpos i v Hv). simpl in Hpos. lia.
  - apply concat_imap_Forall. intros i v Hv.
    pose proof (digits_fit traj (shape1 grid)) as Hfit.
    pose proof (binary_grid_spec _ _ Hg) as (_ & _ & Hmax & _).
    specialize (Hfit Hmax). rewrite Forall_lookup in Hfit. specialize (Hfit i v Hv).
    apply lookup_lt_Some in Hv.
    apply row_rects_inside; [done | lia | | nia | nia].
    intros j Hj. nia.
Qed.

Lemma landscape_png_exact_witness :
  1 ≤ 27 ∧ 1 ≤ 6 ∧
  ∃ traj grid img,
    trajectory 27 false = Some traj ∧ binary_grid traj = Some grid
    ∧ landscape_png 27 false 6 = Some img
    ∧ width img = Z.of_nat (shape1 grid) * 6
    ∧ height img = Z.of_nat (length traj) * 6
    ∧ background img = BG
    ∧ fills img = landscape_rects 6 traj
    ∧ length (fills img) = sum_list (bit_length <$> traj)
    ∧ Forall (rect_inside (width img) (height img)) (fills img).
Proof. split_and!; [lia | lia | apply landscape_png_exact; lia]. Defined.

(** X19. [landscape_png] raises when the start value is below 1, as
    [binary_grid] does on the trajectory [[n]]. *)
Theorem landscape_png_raises (n : Z) (accelerated : bool) (cell : Z) :
  n ≤ 0 → landscape_png n accelerated cell = None.
Proof.
  intros Hn. destruct (scene_inputs_none n accelerated Hn) as [Ht Hg].
  unfold landscape_png. rewrite Ht. cbn [mbind option_bind]. by rewrite Hg.
Qed.

Lemma landscape_png_raises_witness : 0 ≤ 0 ∧ landscape_png 0 false 6 = None.
Proof. split; [lia | apply landscape_png_raises; lia]. Defined.

Section LayoutMore.

Lemma sum_listZ_app (l k : list Z) : sum_listZ (l ++ k) = sum_listZ l + sum_listZ k.
Proof. induction l as [|x l IH]; simpl in *; lia. Qed.

Lemma layout_fold (gap_cols : Z) (grids : list ndarray) (offs0 : list Z) (off0 : Z) :
  foldl (λ '(col_offsets, off) g,
           (col_offsets ++ [off], off + (Z.of_nat (shape1 g) + gap_cols)))
        (offs0, off0) grids
  = (offs0 ++ imap (λ idx _, off0 + sum_listZ (slot_width gap_cols <$> take idx grids))
                   grids,
     off0 + sum_listZ (slot_width gap_cols <$> grids)).
Proof.
  revert offs0 off0. induction grids as [|g grids IH]; intros offs0 off0.
  - simpl. by rewrite app_nil_r, Z.add_0_r.
  - cbn [foldl]. rewrite IH. f_equal.
    + rewrite <- app_assoc. f_equal. simpl. rewrite Z.add_0_r. f_equal.
      apply imap_ext. intros idx g' _. simpl.
      assert (slot_width gap_cols g = Z.of_nat (shape1 g) + gap_cols) as -> by done.
      unfold fmap. lia.
    + simpl.
      assert (slot_width gap_cols g = Z.of_nat (shape1 g) + gap_cols) as -> by done.
      unfold fmap. lia.
Qed.

(** The offsets of the layout as sums of the slots before them. *)
Lemma layout_sums (gap_cols : Z) (grids : list ndarray) :
  layout gap_cols grids
  = (imap (λ idx _, sum_listZ (slot_width gap_cols <$> take idx grids)) grids,
     sum_listZ (slot_width gap_cols <$> grids)).
Proof.
  unfold layout. rewrite layout_fold. simpl. f_equal.
Qed.

Lemma sum_slot_widths (gap_cols : Z) (grids : list ndarray) :
  sum_listZ (slot_width gap_cols <$> grids)
  = sum_listZ ((Z.of_nat ∘ shape1) <$> grids) + Z.of_nat (length grids) * gap_cols.
Proof.
  induction grids as [|g grids IH]; [done|].
  rewrite !fmap_cons. cbn [sum_listZ foldr length]. unfold sum_listZ in IH.
  rewrite IH. unfold slot_width. simpl. lia.
Qed.

Lemma sum_widths_nonneg (grids : list ndarray) :
  0 ≤ sum_listZ ((Z.of_nat ∘ shape1) <$> grids).
Proof.
  induction grids as [|g grids IH]; [done|].
  rewrite fmap_cons. unfold sum_listZ in *. cbn [foldr].
  assert ((Z.of_nat ∘ shape1) g = Z.of_nat (shape1 g)) as -> by done. lia.
Qed.

(** A slot ends before the layout does. *)
Lemma slot_inside_layout (gap_cols : Z) (grids : list ndarray) (idx : nat)
    (g : ndarray) :
  0 ≤ gap_cols → grids !! idx = Some g →
  0 ≤ sum_listZ (slot_width gap_cols <$> take idx grids)
  ∧ sum_listZ (slot_width gap_cols <$> take idx grids) + Z.of_nat (shape1 g)
    ≤ sum_listZ (slot_width gap_cols <$> grids) - gap_cols.
Proof.
  intros Hgap Hg.
  pose proof (take_drop_middle grids idx g Hg) as Hsplit.
  assert (sum_listZ (slot_width gap_cols <$> grids)
          = sum_listZ (slot_width gap_cols <$> take idx grids)
            + (slot_width gap_cols g
               + sum_listZ (slot_width gap_cols <$> drop (S idx) grids))) as ->.
  { rewrite <- Hsplit at 1. by rewrite fmap_app, fmap_cons, sum_listZ_app. }
  assert (slot_width gap_cols g = Z.of_nat (shape1 g) + gap_cols) as -> by done.
  pose proof (sum_slot_widths gap_cols (take idx grids)) as H1.
  pose proof (sum_slot_widths gap_cols (drop (S idx) grids)) as H2.
  pose proof (sum_widths_nonneg (take idx grids)).
  pose proof (sum_widths_nonneg (drop (S idx) grids)).
  assert (0 ≤ Z.of_nat (length (take idx grids)) * gap_cols) by nia.
  assert (0 ≤ Z.of_nat (length (drop (S idx) grids)) * gap_cols) by nia.
  lia.
Qed.

End LayoutMore.

(** X20. The layout of [parallel_gif] places the first grid at column 0 and
    every next one directly after the one before it and the gap; there is
    one offset per grid, and [total_cols] is the sum of the grid widths
    plus one gap between each two neighbours. *)
Theorem layout_offsets (gap_cols : Z) (grids : list ndarray) :
  length (layout gap_cols grids).1 = length grids
  ∧ (grids ≠ [] → (layout gap_cols grids).1 !! 0%nat = Some 0)
  ∧ (∀ idx g o, grids !! idx = Some g → (layout gap_cols grids).1 !! idx = Some o →
                (S idx < length grids)%nat →
                (layout gap_cols grids).1 !! S idx
                = Some (o + Z.of_nat (shape1 g) + gap_cols))
  ∧ (layout gap_cols grids).2 - gap_cols
    = sum_listZ ((Z.of_nat ∘ shape1) <$> grids)
      + (Z.of_nat (length grids) - 1) * gap_cols.
Proof.
  rewrite layout_sums. cbn [fst snd]. split_and!.
  - apply length_imap.
  - intros Hne. destruct grids as [|g grids]; done.
  - intros idx g o Hg Ho Hlt.
    rewrite list_lookup_imap in Ho. rewrite Hg in Ho. simpl in Ho. injection Ho as <-.
    rewrite list_lookup_imap.
    destruct (lookup_lt_is_Some_2 grids (S idx) Hlt) as [g' ->]. simpl. f_equal.
    rewrite (take_S_r grids idx g Hg), fmap_app, sum_listZ_app.
    rewrite fmap_cons, fmap_nil. cbn [sum_listZ foldr].
    assert (slot_width gap_cols g = Z.of_nat (shape1 g) + gap_cols) as -> by done.
    lia.
  - rewrite sum_slot_widths. lia.
Qed.

Lemma layout_offsets_witness :
  [np_full 1 3 0; np_full 1 5 0] ≠ []
  ∧ (layout 2 [np_full 1 3 0; np_full 1 5 0]).1 !! 0%nat = Some 0
  ∧ (layout 2 [np_full 1 3 0; np_full 1 5 0]).1 !! 1%nat = Some (0 + Z.of_nat 3 + 2)
  ∧ (layout 2 [np_full 1 3 0; np_full 1 5 0]).2 - 2
    = sum_listZ ((Z.of_nat ∘ shape1) <$> [np_full 1 3 0; np_full 1 5 0])
      + (Z.of_nat (length [np_full 1 3 0; np_full 1 5 0]) - 1) * 2.
Proof.
  assert ([np_full 1 3 0; np_full 1 5 0] ≠ []) as Hne by discriminate.
  destruct (layout_offsets 2 [np_full 1 3 0; np_full 1 5 0])
    as (_ & Hfirst & Hnext & Htotal).
  split_and!; [exact Hne | exact (Hfirst Hne) | | exact Htotal].
  apply (Hnext 0%nat (np_full 1 3 0) 0); [reflexivity | exact (Hfirst Hne) | simpl; lia].
Defined.

(** X21. Brightening a byte colour by an amount that is not negative gives a
    byte colour again, no channel darker than before and none above 255. *)
Theorem bright_rgb (c : color) (amt : Z) :
  rgb c → 0 ≤ amt →
  rgb (_bright c amt)
  ∧ c.1.1 ≤ (_bright c amt).1.1 ∧ c.1.2 ≤ (_bright c amt).1.2
  ∧ c.2 ≤ (_bright c amt).2.
Proof.
  destruct c as [[r g] b]. unfold rgb, _bright. simpl. lia.
Qed.

Lemma bright_rgb_witness :
  rgb (232, 160, 32) ∧ 0 ≤ 40
  ∧ rgb (_bright (232, 160, 32) 40)
  ∧ 232 ≤ (_bright (232, 160, 32) 40).1.1 ∧ 160 ≤ (_bright (232, 160, 32) 40).1.2
  ∧ 32 ≤ (_bright (232, 160, 32) 40).2.
Proof.
  assert (rgb (232, 160, 32)) as Hc by (unfold rgb; lia).
  split; [exact Hc|]. split; [lia|].
  exact (bright_rgb (232, 160, 32) 40 Hc ltac:(lia)).
Defined.

Section ParallelMore.

(** A loop whose iterations only add fills adds them all, in order. *)
Lemma for_each_add_fills (body : nat → Canvas → option Canvas)
    (L : nat → list (Z * Z * Z * Z * color)) (start len : nat) (c : Canvas) :
  (∀ k c, (start ≤ k < start + len)%nat → body k c = Some (add_fills c (L k))) →
  for_each body (seq start len) c
  = Some (add_fills c (concat (L <$> seq start len))).
Proof.
  revert start c. induction len as [|len IH]; intros start c Hbody.
  - simpl. by rewrite add_fills_nil.
  - simpl. rewrite Hbody by lia. cbn [mbind option_bind].
    rewrite IH by (intros; apply Hbody; lia). by rewrite add_fills_app.
Qed.

(** A loop that paints and then takes a snapshot yields the canvases after
    each of its steps. *)
Lemma frames_loop_exact (paint : nat → Canvas → option Canvas)
    (L : nat → list (Z * Z * Z * Z * color)) (n : nat) (c0 : Canvas) :
  (∀ k c, (k < n)%nat → paint k c = Some (add_fills c (L k))) →
  for_each (λ r '(canvas, frames),
              canvas ← paint r canvas; Some (canvas, frames ++ [canvas]))
           (seq 0 n) (c0, [])
  = Some (add_fills c0 (concat (L <$> seq 0 n)),
          (λ r, add_fills c0 (concat (L <$> seq 0 (S r)))) <$> seq 0 n).
Proof.
  intros Hpaint.
  destruct (for_each_seq_inv
              (λ k st, st = (add_fills c0 (concat (L <$> seq 0 k)),
                             (λ r, add_fills c0 (concat (L <$> seq 0 (S r))))
                             <$> seq 0 k))
              (λ r '(canvas, frames),
                 canvas ← paint r canvas; Some (canvas, frames ++ [canvas]))
              0 n (c0, [])) as (st & Hrun & ->).
  - simpl. by rewrite add_fills_nil.
  - intros k st Hk ->. rewrite Hpaint by lia. cbn [mbind option_bind].
    eexists. split; [done|].
    assert (add_fills (add_fills c0 (concat (L <$> seq 0 k))) (L k)
            = add_fills c0 (concat (L <$> seq 0 (S k)))) as ->.
    { rewrite add_fills_app, (seq_S k), fmap_app, concat_app. simpl.
      by rewrite app_nil_r. }
    f_equal. set (F := λ r, add_fills c0 (concat (L <$> seq 0 (S r)))).
    change ((F <$> seq 0 k) ++ [F k] = F <$> seq 0 (S k)).
    by rewrite seq_S, fmap_app.
  - by rewrite Hrun.
Qed.

Variables (trajs : list (list Z)) (grids : list ndarray) (col_offsets : list Z).
Variables (cell gap : Z).
Hypothesis Hgrids : Forall2 (λ t g, binary_grid t = Some g) trajs grids.
Hypothesis Hoffsets : length col_offsets = length grids.

Lemma traj_row_exact (idx row : nat) (highlight : bool) (c : Canvas) :
  (idx < length grids)%nat →
  traj_row grids col_offsets 10 cell gap idx row highlight c
  = Some (add_fills c (parallel_rects cell gap trajs col_offsets idx row highlight)).
Proof.
  intros Hidx.
  destruct (lookup_lt_is_Some_2 grids idx Hidx) as [g Hg].
  destruct (Forall2_lookup_r _ _ _ _ _ Hgrids Hg) as (t & Ht & Htg).
  destruct (lookup_lt_is_Some_2 col_offsets idx ltac:(lia)) as [co Hco].
  destruct (lookup_lt_is_Some_2 PAL_MULTI (idx mod 4)) as [pal Hpal].
  { change (length PAL_MULTI) with 4%nat. apply Nat.mod_upper_bound. lia. }
  pose proof (binary_grid_rows _ _ Htg) as [H0 _].
  unfold traj_row, parallel_rects. rewrite Hg, Ht, Hco. cbn [mbind option_bind].
  change (length PAL_MULTI) with 4%nat. rewrite Hpal.
  destruct (decide (shape0 g ≤ row)%nat) as [Hout|Hin].
  - rewrite lookup_ge_None_2 by lia. by rewrite add_fills_nil.
  - destruct (lookup_lt_is_Some_2 t row ltac:(lia)) as [v Hv]. rewrite Hv.
    cbn [mbind option_bind]. by apply paint_row_exact with (traj := t).
Qed.

(** One time step of the frame loop, over all trajectories. *)
Lemma parallel_step_exact (r : nat) (c : Canvas) :
  for_each (λ idx canvas,
              canvas ← (if decide (0 < r)%nat
                        then traj_row grids col_offsets 10 cell gap
                                      idx (r - 1)%nat false canvas
                        else Some canvas);
              traj_row grids col_offsets 10 cell gap idx r true canvas)
           (seq 0 (length grids)) c
  = Some (add_fills c (parallel_step cell gap trajs col_offsets r)).
Proof.
  unfold parallel_step. rewrite (Forall2_length _ _ _ Hgrids).
  apply for_each_add_fills. intros idx c' Hidx.
  destruct (decide (0 < r)%nat).
  - rewrite traj_row_exact by lia. cbn [mbind option_bind].
    rewrite traj_row_exact by lia. by rewrite add_fills_app.
  - cbn [mbind option_bind]. by rewrite traj_row_exact by lia.
Qed.

Lemma parallel_loop_exact (max_rows : nat) (c0 : Canvas) :
  parallel_loop grids col_offsets 10 cell gap max_rows c0
  = Some (add_fills c0 (concat (parallel_step cell gap trajs col_offsets
                                <$> seq 0 max_rows)),
          (λ r, add_fills c0 (concat (parallel_step cell gap trajs col_offsets
                                      <$> seq 0 (S r))))
          <$> seq 0 max_rows).
Proof.
  unfold parallel_loop.
  exact (frames_loop_exact
           (λ r canvas,
              for_each (λ idx canvas,
                          canvas ← (if decide (0 < r)%nat
                                    then traj_row grids col_offsets 10 cell gap
                                                  idx (r - 1)%nat false canvas
                                    else Some canvas);
                          traj_row grids col_offsets 10 cell gap idx r true canvas)
                       (seq 0 (length grids)) canvas)
           (parallel_step cell gap trajs col_offsets) max_rows c0
           (λ k c _, parallel_step_exact k c)).
Qed.

Lemma parallel_settle_exact (c : Canvas) :
  for_each (λ idx canvas,
              g ← grids !! idx;
              traj_row grids col_offsets 10 cell gap
                       idx (shape0 g - 1)%nat false canvas)
           (seq 0 (length grids)) c
  = Some (add_fills c (parallel_settle cell gap trajs col_offsets)).
Proof.
  unfold parallel_settle. rewrite (Forall2_length _ _ _ Hgrids).
  apply for_each_add_fills. intros idx c' Hidx.
  destruct (lookup_lt_is_Some_2 grids idx ltac:(lia)) as [g Hg].
  destruct (Forall2_lookup_r _ _ _ _ _ Hgrids Hg) as (t & Ht & Htg).
  pose proof (binary_grid_rows _ _ Htg) as [H0 _].
  rewrite Hg, Ht. cbn [mbind option_bind from_option]. rewrite H0.
  by rewrite traj_row_exact by lia.
Qed.

End ParallelMore.

Section ParallelFrames.

(** Every frame of the parallel animation, in closed form. *)
Lemma parallel_gif_frames (numbers : list Z) (accelerated : bool)
    (cell gap_cols : Z) (trajs : list (list Z)) (grids : list ndarray)
    (max_rows : nat) (gap : Z) (c0 : Canvas) :
  mapM (λ n, trajectory n accelerated) numbers = Some trajs →
  mapM binary_grid trajs = Some grids →
  py_max (shape0 <$> grids) = Some max_rows →
  gap = (if 8 <=? cell then 1 else 0) →
  c0 = Image_new (((layout gap_cols grids).2 - gap_cols) * cell + 2 * 10)
                 (Z.of_nat max_rows * cell + 2 * 10) BG →
  parallel_gif numbers accelerated cell gap_cols
  = Some (((λ r, add_fills c0
                   (concat (parallel_step cell gap trajs (layout gap_cols grids).1
                            <$> seq 0 (S r))))
           <$> seq 0 max_rows)
          ++ replicate 30
               (add_fills c0
                  (concat (parallel_step cell gap trajs (layout gap_cols grids).1
                           <$> seq 0 max_rows)
                   ++ parallel_settle cell gap trajs (layout gap_cols grids).1))).
Proof.
  intros Htrajs Hgrids Hmax -> ->.
  pose proof (layout_length gap_cols grids) as Hoff.
  pose proof (proj1 (mapM_Some _ _ _) Hgrids) as HF2.
  unfold parallel_gif. rewrite Htrajs. cbn [mbind option_bind].
  rewrite Hgrids. cbn [mbind option_bind]. rewrite Hmax. cbn [mbind option_bind].
  destruct (layout gap_cols grids) as [col_offsets off] eqn:Hlay.
  cbn [fst snd] in *. cbv zeta.
  rewrite (parallel_loop_exact trajs grids col_offsets cell _ HF2 Hoff).
  cbn [mbind option_bind].
  rewrite (parallel_settle_exact trajs grids col_offsets cell _ HF2 Hoff).
  cbn [mbind option_bind]. unfold HOLD. by rewrite add_fills_app.
Qed.

(** The scene exists for a non-empty list of start values from 1 on. *)
Lemma parallel_inputs (numbers : list Z) (accelerated : bool) :
  numbers ≠ [] → Forall (λ n, 1 ≤ n) numbers →
  ∃ trajs grids max_rows,
    mapM (λ n, trajectory n accelerated) numbers = Some trajs
    ∧ mapM binary_grid trajs = Some grids
    ∧ py_max (shape0 <$> grids) = Some max_rows.
Proof.
  intros Hne Hpos.
  destruct (trajectories_total accelerated numbers) as (trajs & Htrajs & HF2).
  destruct (grids_total accelerated numbers trajs Hpos HF2)
    as (grids & Hgrids & _ & Hlen & _).
  destruct (py_max (shape0 <$> grids)) as [max_rows|] eqn:Hmax.
  - by exists trajs, grids, max_rows.
  - apply py_max_None, fmap_nil_inv in Hmax. subst grids.
    destruct numbers; [done | simpl in Hlen; lia].
Qed.

Lemma parallel_rects_inside (trajs : list (list Z)) (grids : list ndarray)
    (gap_cols cell gap : Z) (max_rows idx row : nat) (highlight : bool) :
  Forall2 (λ t g, binary_grid t = Some g) trajs grids →
  py_max (shape0 <$> grids) = Some max_rows →
  0 ≤ gap_cols → 0 ≤ gap → 2 * gap + 1 ≤ cell →
  Forall (rect_inside (((layout gap_cols grids).2 - gap_cols) * cell + 2 * 10)
                      (Z.of_nat max_rows * cell + 2 * 10))
         (parallel_rects cell gap trajs (layout gap_cols grids).1 idx row highlight).
Proof.
  intros HF2 Hmax Hgc Hgap Hcell. unfold parallel_rects.
  destruct (trajs !! idx) as [t|] eqn:Ht; [|constructor].
  destruct ((layout gap_cols grids).1 !! idx) as [co|] eqn:Hco; [|constructor].
  destruct (PAL_MULTI !! (idx mod 4)%nat) as [pal|]; [|constructor].
  destruct (t !! row) as [v|] eqn:Hv; [|constructor].
  destruct (Forall2_lookup_l _ _ _ _ _ HF2 Ht) as (g & Hg & Htg).
  rewrite layout_sums in Hco |- *. cbn [fst snd] in *.
  rewrite list_lookup_imap, Hg in Hco. simpl in Hco. injection Hco as <-.
  destruct (slot_inside_layout gap_cols grids idx g Hgc Hg) as [Hco0 Hco1].
  pose proof (binary_grid_rows _ _ Htg) as [H0 _].
  pose proof (digits_fit t (shape1 g)) as Hfit.
  pose proof (binary_grid_spec _ _ Htg) as (_ & _ & Hmaxb & _).
  specialize (Hfit Hmaxb). rewrite Forall_lookup in Hfit. specialize (Hfit row v Hv).
  apply lookup_lt_Some in Hv.
  assert (shape0 g ≤ max_rows)%nat as Hrows.
  { apply py_max_spec in Hmax as [_ Hbound]. apply Hbound.
    apply list_elem_of_fmap_2. by eapply list_elem_of_lookup_2. }
  set (co := sum_listZ (slot_width gap_cols <$> take idx grids)) in *.
  set (total := sum_listZ (slot_width gap_cols <$> grids) - gap_cols) in *.
  apply row_rects_inside; [done | done | | nia | nia].
  intros j Hj.
  assert (0 ≤ (co + Z.of_nat j) * cell) by nia.
  assert ((co + Z.of_nat j) * cell + cell ≤ total * cell) by nia.
  lia.
Qed.

End ParallelFrames.



(** X23. The frames of [parallel_gif] in closed form, for a non-empty list
    of start values from 1 on.  Frame [r] is the empty canvas with the
    fills of the time steps 0 to [r]; a time step settles row [r - 1] and
    then highlights row [r] of every trajectory in turn, in the columns
    and palette of that trajectory, and adds nothing for a trajectory
    that has no such row.  The 30 held frames are the canvas after all
    [max_rows] time steps and the settling of every last row. *)
Theorem parallel_frames_exact (numbers : list Z) (accelerated : bool)
    (cell gap_cols : Z) :
  numbers ≠ [] → Forall (λ n, 1 ≤ n) numbers → 1 ≤ cell → 0 ≤ gap_cols →
  ∃ trajs grids max_rows gap c0 step,
    mapM (λ n, trajectory n accelerated) numbers = Some trajs
    ∧ mapM binary_grid trajs = Some grids
    ∧ py_max (length <$> trajs) = Some max_rows
    ∧ gap = (if 8 <=? cell then 1 else 0)
    ∧ c0 = Image_new (((layout gap_cols grids).2 - gap_cols) * cell + 20)
                     (Z.of_nat max_rows * cell + 20) BG
    ∧ step = parallel_step cell gap trajs (layout gap_cols grids).1
    ∧ parallel_gif numbers accelerated cell gap_cols
      = Some (((λ r, add_fills c0 (concat (step <$> seq 0 (S r)))) <$> seq 0 max_rows)
              ++ replicate 30
                   (add_fills c0
                      (concat (step <$> seq 0 max_rows)
                       ++ parallel_settle cell gap trajs (layout gap_cols grids).1))).
Proof.
  intros Hne Hpos _ _.
  destruct (parallel_inputs numbers accelerated Hne Hpos)
    as (trajs & grids & max_rows & Ht & Hg & Hmax).
  destruct (grids_of_trajs _ _ Hg) as [_ Hshape].
  exists trajs, grids, max_rows. do 3 eexists.
  split_and!; [done | done | by rewrite <- Hshape | reflexivity | reflexivity
               | reflexivity |].
  by rewrite (parallel_gif_frames numbers accelerated cell gap_cols trajs grids
                                  max_rows _ _ Ht Hg Hmax eq_refl eq_refl).
Qed.

Lemma parallel_frames_exact_witness :
  [2; 1] ≠ [] ∧ Forall (λ n, 1 ≤ n) [2; 1] ∧ 1 ≤ 12 ∧ 0 ≤ 2
  ∧ ∃ trajs grids max_rows gap c0 step,
      mapM (λ n, trajectory n true) [2; 1] = Some trajs
      ∧ mapM binary_grid trajs = Some grids
      ∧ py_max (length <$> trajs) = Some max_rows
      ∧ gap = (if 8 <=? 12 then 1 else 0)
      ∧ c0 = Image_new (((layout 2 grids).2 - 2) * 12 + 20)
                       (Z.of_nat max_rows * 12 + 20) BG
      ∧ step = parallel_step 12 gap trajs (layout 2 grids).1
      ∧ parallel_gif [2; 1] true 12 2
        = Some (((λ r, add_fills c0 (concat (step <$> seq 0 (S r))))
                 <$> seq 0 max_rows)
                ++ replicate 30
                     (add_fills c0
                        (concat (step <$> seq 0 max_rows)
                         ++ parallel_settle 12 gap trajs (layout 2 grids).1))).
Proof.
  assert ([2; 1] ≠ []) as Hne by discriminate.
  assert (Forall (λ n, 1 ≤ n) [2; 1]) as Hpos by (repeat constructor; lia).
  split_and!; [exact Hne | exact Hpos | lia | lia |].
  exact (parallel_frames_exact [2; 1] true 12 2 Hne Hpos ltac:(lia) ltac:(lia)).
Defined.

(** X24. For a non-empty list of start values from 1 on, a cell of at least
    one pixel and a gap that is not negative, every frame of [parallel_gif]
    is [total_cols * cell + 20] pixels wide and [max_rows * cell + 20] high
    on the background BG, and every rectangle painted on it is non-empty
    and lies inside the image: no trajectory paints outside the canvas. *)
Theorem parallel_frames_geometry (numbers : list Z) (accelerated : bool)
    (cell gap_cols : Z) :
  numbers ≠ [] → Forall (λ n, 1 ≤ n) numbers → 1 ≤ cell → 0 ≤ gap_cols →
  ∃ trajs grids max_rows frames,
    mapM (λ n, trajectory n accelerated) numbers = Some trajs
    ∧ mapM binary_grid trajs = Some grids
    ∧ py_max (length <$> trajs) = Some max_rows
    ∧ parallel_gif numbers accelerated cell gap_cols = Some frames
    ∧ ∀ f, f ∈ frames →
           width f = (sum_listZ ((Z.of_nat ∘ shape1) <$> grids)
                      + (Z.of_nat (length grids) - 1) * gap_cols) * cell + 20
           ∧ height f = Z.of_nat max_rows * cell + 20
           ∧ background f = BG
           ∧ Forall (rect_inside (width f) (height f)) (fills f).
Proof.
  intros Hne Hpos Hcell Hgc.
  destruct (parallel_inputs numbers accelerated Hne Hpos)
    as (trajs & grids & max_rows & Ht & Hg & Hmax).
  destruct (grids_of_trajs _ _ Hg) as [_ Hshape].
  pose proof (proj1 (mapM_Some _ _ _) Hg) as HF2.
  exists trajs, grids, max_rows. eexists.
  split_and!; [done | done | by rewrite <- Hshape | |].
  { by rewrite (parallel_gif_frames numbers accelerated cell gap_cols trajs grids
                                    max_rows _ _ Ht Hg Hmax eq_refl eq_refl). }
  set (gap := if 8 <=? cell then 1 else 0).
  assert (0 ≤ gap ∧ 2 * gap + 1 ≤ cell) as [Hgap Hroom].
  { subst gap. destruct (Z.leb_spec 8 cell); lia. }
  assert ((layout gap_cols grids).2 - gap_cols
          = sum_listZ ((Z.of_nat ∘ shape1) <$> grids)
            + (Z.of_nat (length grids) - 1) * gap_cols) as Htotal.
  { rewrite layout_sums. cbn [snd]. rewrite sum_slot_widths. lia. }
  rewrite <- Htotal.
  assert (∀ idx row hl,
            Forall (rect_inside (((layout gap_cols grids).2 - gap_cols) * cell + 20)
                                (Z.of_nat max_rows * cell + 20))
                   (parallel_rects cell gap trajs (layout gap_cols grids).1 idx row hl))
    as Hin by (intros; by apply parallel_rects_inside).
  assert (∀ r, Forall (rect_inside (((layout gap_cols grids).2 - gap_cols) * cell + 20)
                                   (Z.of_nat max_rows * cell + 20))
                      (parallel_step cell gap trajs (layout gap_cols grids).1 r))
    as Hstep.
  { intros r. unfold parallel_step.
    apply Forall_concat, Forall_fmap, Forall_forall. intros idx _.
    apply Forall_app. split; [|apply Hin]. destruct (decide (0 < r)%nat);
      [apply Hin | constructor]. }
  assert (∀ k, Forall (rect_inside (((layout gap_cols grids).2 - gap_cols) * cell + 20)
                                   (Z.of_nat max_rows * cell + 20))
                      (concat (parallel_step cell gap trajs (layout gap_cols grids).1
                               <$> seq 0 k))) as Hsteps.
  { intros k. apply Forall_concat, Forall_fmap, Forall_forall. intros r _. apply Hstep. }
  intros f [Hf|Hf]%elem_of_app.
  - apply list_elem_of_fmap in Hf as (r & -> & _).
    split_and!; [done..|]. exact (Hsteps (S r)).
  - apply elem_of_replicate in Hf as [-> _].
    split_and!; [done..|].
    change (Forall (rect_inside (((layout gap_cols grids).2 - gap_cols) * cell + 20)
                                (Z.of_nat max_rows * cell + 20))
                   (concat (parallel_step cell gap trajs (layout gap_cols grids).1
                            <$> seq 0 max_rows)
                    ++ parallel_settle cell gap trajs (layout gap_cols grids).1)).
    apply Forall_app. split; [apply Hsteps|].
    unfold parallel_settle.
    apply Forall_concat, Forall_fmap, Forall_forall. intros idx _. apply Hin.
Qed.

Lemma parallel_frames_geometry_witness :
  [7; 27; 97] ≠ [] ∧ Forall (λ n, 1 ≤ n) [7; 27; 97] ∧ 1 ≤ 12 ∧ 0 ≤ 2
  ∧ ∃ trajs grids max_rows frames,
      mapM (λ n, trajectory n true) [7; 27; 97] = Some trajs
      ∧ mapM binary_grid trajs = Some grids
      ∧ py_max (length <$> trajs) = Some max_rows
      ∧ parallel_gif [7; 27; 97] true 12 2 = Some frames
      ∧ ∀ f, f ∈ frames →
             width f = (sum_listZ ((Z.of_nat ∘ shape1) <$> grids)
                        + (Z.of_nat (length grids) - 1) * 2) * 12 + 20
             ∧ height f = Z.of_nat max_rows * 12 + 20
             ∧ background f = BG
             ∧ Forall (rect_inside (width f) (height f)) (fills f).
Proof.
  assert ([7; 27; 97] ≠ []) as Hne by discriminate.
  assert (Forall (λ n, 1 ≤ n) [7; 27; 97]) as Hpos by (repeat constructor; lia).
  split_and!; [exact Hne | exact Hpos | lia | lia |].
  exact (parallel_frames_geometry [7; 27; 97] true 12 2 Hne Hpos ltac:(lia) ltac:(lia)).
Defined.
